(** * juju: error classification (state/errors.go) and the provisioner
      (Provisioner, environment, machines)

    A shallow embedding of the two Go sources and the properties of their
    specification.  Go values that are threaded through calls become
    explicit state; every blocking [select] becomes a step that is given the
    case that was chosen. *)

From Stdlib Require Import List String ZArith Bool Arith Lia.
Import ListNotations.
Local Open Scope string_scope.

(** ** Package state: errors.go *)

Module Errors.

(** The three error structs of the file.  [curl] is a [*charm.URL]; only its
    presence matters here, so it is kept as printed text. *)
Record ErrCharmAlreadyUploaded := { curl : option string }.
Record ErrProviderIDNotUnique := { duplicateIDs : list string }.
Record ErrParentDeviceHasChildren := { parentName : string; numChildren : Z }.

(** The dynamic value held by a non-nil [interface{}].  Pointers to the three
    structs above, the [*errors.Err] of github.com/juju/errors (the only type
    here with a [Cause] method), the error built by [fmt.Errorf], and two
    dynamic types without an [Error] method.  An interface value is an
    [option value]: [None] is Go's nil. *)
#[warnings="-register-all"]
Inductive value : Type :=
| PtrErrCharmAlreadyUploaded (e : ErrCharmAlreadyUploaded)
| PtrErrProviderIDNotUnique (e : ErrProviderIDNotUnique)
| PtrErrParentDeviceHasChildren (e : ErrParentDeviceHasChildren)
| JujuErr (message : string) (cause previous : option value)
| ErrorString (s : string)
| GoString (s : string)
| GoInt (n : Z).

Definition iface := option value.

(** Does the dynamic type have an [Error() string] method? *)
Definition implements_error (v : value) : bool :=
  match v with
  | GoString _ | GoInt _ => false
  | _ => true
  end.

(** A call either returns or panics. *)
Inductive result (A : Type) : Type :=
| Returns (a : A)
| Panics.
Arguments Returns {A} a.
Arguments Panics {A}.

(** The unchecked type assertion [err.(error)] on a non-nil interface. *)
Definition assert_error (v : value) : result value :=
  if implements_error v then Returns v else Panics.

Definition is_ErrCharmAlreadyUploaded (v : value) : bool :=
  match v with PtrErrCharmAlreadyUploaded _ => true | _ => false end.
Definition is_ErrProviderIDNotUnique (v : value) : bool :=
  match v with PtrErrProviderIDNotUnique _ => true | _ => false end.
Definition is_ErrParentDeviceHasChildren (v : value) : bool :=
  match v with PtrErrParentDeviceHasChildren _ => true | _ => false end.

(** The comma-ok assertion of [value] to a pointer type [T], on a possibly nil
    interface: the [ok] it yields. *)
Definition comma_ok (is_T : value -> bool) (v : iface) : bool :=
  match v with
  | Some x => is_T x
  | None => false
  end.

Definition newProviderIDNotUniqueErrorFromStrings (providerIDs : list string) : iface :=
  Some (PtrErrProviderIDNotUnique {| duplicateIDs := providerIDs |}).

(** [network.Id] is a string type; the conversion is the identity. *)
Definition NewProviderIDNotUniqueError (providerIDs : list string) : iface :=
  let stringIDs := map (fun providerID => providerID) providerIDs in
  newProviderIDNotUniqueErrorFromStrings stringIDs.

Definition newParentDeviceHasChildrenError (parentName : string) (numChildren : Z) : iface :=
  Some (PtrErrParentDeviceHasChildren
          {| parentName := parentName; numChildren := numChildren |}).

Section Predicates.

(** [errors.Cause] of github.com/juju/errors, which is not among the sources:
    the predicates are defined for whatever it returns. *)
Variable errors_Cause : iface -> iface.

Definition IsCharmAlreadyUploadedError (err : iface) : result bool :=
  match err with
  | None => Returns false
  | Some v =>
      let value := err in
      match assert_error v with
      | Panics => Panics
      | Returns e =>
          let cause := errors_Cause (Some e) in
          let value := match cause with Some _ => cause | None => value end in
          Returns (comma_ok is_ErrCharmAlreadyUploaded value)
      end
  end.

Definition IsProviderIDNotUniqueError (err : iface) : result bool :=
  match err with
  | None => Returns false
  | Some v =>
      let value := err in
      match assert_error v with
      | Panics => Panics
      | Returns e =>
          let cause := errors_Cause (Some e) in
          let value := match cause with Some _ => cause | None => value end in
          Returns (comma_ok is_ErrProviderIDNotUnique value)
      end
  end.

Definition IsParentDeviceHasChildrenError (err : iface) : result bool :=
  match err with
  | None => Returns false
  | Some v =>
      let value := err in
      match assert_error v with
      | Panics => Panics
      | Returns e =>
          let cause := errors_Cause (Some e) in
          let value := match cause with Some _ => cause | None => value end in
          Returns (comma_ok is_ErrParentDeviceHasChildren value)
      end
  end.

(** What the three predicates have in common, for a predicate [Is] and the
    dynamic type [is_T] it looks for: false on nil; the answer for the cause
    when there is one, for the error itself when there is none; a panic on a
    value that is no error. *)
Definition classifies (Is : iface -> result bool) (is_T : value -> bool) : Prop :=
  Is None = Returns false
  /\ (forall v c, implements_error v = true -> errors_Cause (Some v) = Some c ->
        Is (Some v) = Returns (is_T c))
  /\ (forall v, implements_error v = true -> errors_Cause (Some v) = None ->
        Is (Some v) = Returns (is_T v))
  /\ (forall v, implements_error v = false -> Is (Some v) = Panics).

End Predicates.

(** [errors.Cause] as the library documents it: the result of the [Cause]
    method when the error has one and it is not nil, the error itself
    otherwise.  Of the dynamic types above only [JujuErr] has the method. *)
Definition Cause (err : iface) : iface :=
  match err with
  | Some (JujuErr _ (Some c) _) => Some c
  | _ => err
  end.

(** [errors.Trace]: a new [*errors.Err] that keeps the cause of [err]. *)
Definition Trace (err : iface) : iface :=
  match err with
  | None => None
  | Some _ => Some (JujuErr "" (Cause err) err)
  end.

End Errors.

(** ** launchpad.net/tomb *)

Module tomb.

(** Modelled from the spec: the tomb package is not among the sources.  It is
    the "cancellation/completion primitive" of the Controller: [Kill]
    requests cancellation and may be repeated, keeping the first reason that
    is not nil; [Dying] is a channel closed once cancellation is requested;
    [Done] marks the goroutine as having exited; [Wait] blocks until then and
    returns the terminal error.  The zero value is ready for use. *)
Record Tomb (error : Type) := mkTomb {
  dying : bool;            (* the Dying channel is closed *)
  dead : bool;             (* the Dead channel is closed *)
  reason : option error
}.
Arguments mkTomb {error}.
Arguments dying {error}.
Arguments dead {error}.
Arguments reason {error}.

Definition zero {error} : Tomb error :=
  mkTomb false false None.

Definition Kill {error} (r : option error) (t : Tomb error) : Tomb error :=
  mkTomb true (dead t) (match reason t with Some _ => reason t | None => r end).

Definition Done {error} (t : Tomb error) : Tomb error :=
  let t := Kill None t in
  mkTomb (dying t) true (reason t).

(** Can a receive from [t.Dying()] proceed? *)
Definition Dying {error} (t : Tomb error) : bool := dying t.

(** [None]: the caller stays blocked. *)
Definition Wait {error} (t : Tomb error) : option (option error) :=
  if dead t then Some (reason t) else None.

End tomb.

(** ** Package main: the provisioner *)

(** What the provisioner consumes from the packages state and environs,
    which are not among the sources.  A Go result pair (T, error) is a sum:
    the value on the left, or the error on the right, which comes with the
    nil value. *)
Class Collaborators := {
  error : Type;
  ConfigNode : Type;                              (* state.ConfigNode *)
  ConfigMap : Type;                               (* map[string]interface{} *)
  Map : ConfigNode -> ConfigMap;                  (* the Map method of a ConfigNode *)
  MachinesChange : Type;                          (* state.MachinesChange *)
  Config : Type;
  Environ : Type;                                 (* environs.Environ *)
  NewEnviron : ConfigMap -> Environ + error;      (* environs.NewEnviron *)
  NewConfig : ConfigMap -> Config + error;        (* environs.NewConfig *)
  SetConfig : Environ -> Config -> Environ;       (* Environ.SetConfig, in place *)
  WatcherStop : nat -> option error               (* what Stop of a watcher returns *)
}.

(** A step either leaves a next state, or the chosen case cannot
    proceed in this state, or the goroutine panics. *)
Inductive outcome (A : Type) : Type :=
| Next (s : A)
| Blocked
| Panic.
Arguments Next {A} s.
Arguments Blocked {A}.
Arguments Panic {A}.

Section Provisioner.

Context {C : Collaborators}.

(** Watchers are named by the order in which the store handed them out. *)
Definition ConfigWatcher := nat.
Definition MachinesWatcher := nat.

(** The channel a watcher's [Changes] returns: it belongs to that watcher. *)
Inductive chan : Type :=
| ConfigChanges (w : ConfigWatcher)
| MachinesChanges (w : MachinesWatcher).

(** What the process leaves behind: the calls into environs, and the log. *)
Inductive Call : Type :=
| CallNewEnviron (m : ConfigMap)
| CallNewConfig (m : ConfigMap)
| CallSetConfig (c : Config)
| Printf (format : string) (args : list (option error)).

(** The store [*state.State] that all three [st] fields point to, with the
    watchers that were started on it and not yet stopped, and the trace of the
    process (most recent call first). *)
Record World := mkWorld {
  next_watcher : nat;
  config_watchers : list ConfigWatcher;
  machines_watchers : list MachinesWatcher;
  trace : list Call
}.

Definition log_Printf (format : string) (args : list (option error)) (st : World) : World :=
  mkWorld (next_watcher st) (config_watchers st) (machines_watchers st)
          (Printf format args :: trace st).

Definition record_call (c : Call) (st : World) : World :=
  mkWorld (next_watcher st) (config_watchers st) (machines_watchers st)
          (c :: trace st).

Definition WatchEnvironConfig (st : World) : ConfigWatcher * World :=
  let w := next_watcher st in
  (w, mkWorld (S w) (w :: config_watchers st) (machines_watchers st) (trace st)).

Definition WatchMachines (st : World) : MachinesWatcher * World :=
  let w := next_watcher st in
  (w, mkWorld (S w) (config_watchers st) (w :: machines_watchers st) (trace st)).

Definition ConfigWatcher_Stop (w : ConfigWatcher) (st : World) : option error * World :=
  (WatcherStop w,
   mkWorld (next_watcher st) (remove Nat.eq_dec w (config_watchers st))
           (machines_watchers st) (trace st)).

Definition MachinesWatcher_Stop (w : MachinesWatcher) (st : World) : option error * World :=
  (WatcherStop w,
   mkWorld (next_watcher st) (config_watchers st)
           (remove Nat.eq_dec w (machines_watchers st)) (trace st)).

(** *** environment *)

Record environment := mkEnvironment { e_watcher : option ConfigWatcher }.

Definition environment_changes (e : environment) (st : World)
  : chan * environment * World :=
  match e_watcher e with
  | None =>
      let '(w, st) := WatchEnvironConfig st in
      (ConfigChanges w, mkEnvironment (Some w), st)
  | Some w => (ConfigChanges w, e, st)
  end.

Definition environment_invalidate (e : environment) (st : World)
  : environment * World :=
  let st :=
    match e_watcher e with
    | Some w =>
        let '(err, st) := ConfigWatcher_Stop w st in
        log_Printf "provisioner: environment watcher exited: %v" [err] st
    | None => st
    end in
  (mkEnvironment None, st).

(** *** machines *)

Record machines := mkMachines { m_watcher : option MachinesWatcher }.

Definition machines_changes (m : machines) (st : World)
  : chan * machines * World :=
  match m_watcher m with
  | None =>
      let '(w, st) := WatchMachines st in
      (MachinesChanges w, mkMachines (Some w), st)
  | Some w => (MachinesChanges w, m, st)
  end.

Definition machines_invalidate (m : machines) (st : World)
  : machines * World :=
  let st :=
    match m_watcher m with
    | Some w =>
        let '(err, st) := MachinesWatcher_Stop w st in
        log_Printf "provisioner: machines watcher exited: %v" [err] st
    | None => st
    end in
  (mkMachines None, st).

(** *** Provisioner *)

Record Provisioner := mkProvisioner {
  environ : option Environ;
  p_tomb : tomb.Tomb error;
  p_environment : environment;
  p_machines : machines
}.

(** Where the goroutine started by [NewProvisioner] is: at the [select] of
    [loop] (the spec's Idle), at the [select] of [innerLoop] (the spec's
    Active), or returned from [loop]. *)
Inductive control : Type :=
| AtLoop
| AtInnerLoop
| Exited.

Record System := mkSystem {
  prov : Provisioner;
  world : World;
  at_ : control
}.

(** What a [select] receives: the cases other than [<-p.tomb.Dying()].
    [None] is a receive from a closed channel ([ok] false). *)
Inductive delivery : Type :=
| EnvironmentChange (config : option ConfigNode)
| MachinesChanged (change : option MachinesChange).

(** The case a [select] chose. *)
Inductive event : Type :=
| Dying
| Receive (d : delivery).

Definition initial_world : World := mkWorld 0 [] [] [].

Definition NewProvisioner (st : World) : System :=
  mkSystem (mkProvisioner None tomb.zero (mkEnvironment None) (mkMachines None))
           st AtLoop.

Definition processMachines (changes : MachinesChange) (p : Provisioner) (st : World)
  : Provisioner * World := (p, st).

(** One iteration of the [for] of [loop].  The [select] first evaluates its
    channel operands, so [changes] is called whichever case is chosen.  The
    result of [environs.NewEnviron] is assigned to [p.environ] before the
    error is looked at.  The deferred [tomb.Done] runs when [loop] returns. *)
Definition loop_iteration (ev : event) (s : System) : outcome System :=
  let p := prov s in
  let '(_, e, st) := environment_changes (p_environment p) (world s) in
  match ev with
  | Dying =>
      if tomb.Dying (p_tomb p)
      then Next (mkSystem (mkProvisioner (environ p) (tomb.Done (p_tomb p)) e (p_machines p))
                          st Exited)
      else Blocked
  | Receive (EnvironmentChange None) =>
      let '(e, st) := environment_invalidate e st in
      Next (mkSystem (mkProvisioner (environ p) (p_tomb p) e (p_machines p)) st AtLoop)
  | Receive (EnvironmentChange (Some config)) =>
      let st := record_call (CallNewEnviron (Map config)) st in
      match NewEnviron (Map config) with
      | inr err =>
          let st := log_Printf
            "provisioner: unable to create environment from supplied configuration: %v"
            [Some err] st in
          Next (mkSystem (mkProvisioner None (p_tomb p) e (p_machines p)) st AtLoop)
      | inl env =>
          let st := log_Printf "provisioning: valid environment configured" [] st in
          Next (mkSystem (mkProvisioner (Some env) (p_tomb p) e (p_machines p))
                         st AtInnerLoop)
      end
  | Receive (MachinesChanged _) => Blocked
  end.

(** One iteration of the [for] of [innerLoop].  Returning from [innerLoop]
    resumes the [for] of [loop]. *)
Definition innerLoop_iteration (ev : event) (s : System) : outcome System :=
  let p := prov s in
  let '(_, e, st) := environment_changes (p_environment p) (world s) in
  let '(_, m, st) := machines_changes (p_machines p) st in
  match ev with
  | Dying =>
      if tomb.Dying (p_tomb p)
      then Next (mkSystem (mkProvisioner (environ p) (p_tomb p) e m) st AtLoop)
      else Blocked
  | Receive (EnvironmentChange None) =>
      let '(e, st) := environment_invalidate e st in
      Next (mkSystem (mkProvisioner (environ p) (p_tomb p) e m) st AtInnerLoop)
  | Receive (EnvironmentChange (Some change)) =>
      let st := record_call (CallNewConfig (Map change)) st in
      match NewConfig (Map change) with
      | inr err =>
          let st := log_Printf
            "provisioning: new configuration received, but was not valid: %v"
            [Some err] st in
          Next (mkSystem (mkProvisioner (environ p) (p_tomb p) e m) st AtInnerLoop)
      | inl config =>
          match environ p with
          | None => Panic
          | Some env =>
              let st := record_call (CallSetConfig config) st in
              let st := log_Printf "provisioning: new configuartion applied" [] st in
              Next (mkSystem (mkProvisioner (Some (SetConfig env config)) (p_tomb p) e m)
                             st AtInnerLoop)
          end
      end
  | Receive (MachinesChanged None) =>
      let '(m, st) := machines_invalidate m st in
      Next (mkSystem (mkProvisioner (environ p) (p_tomb p) e m) st AtInnerLoop)
  | Receive (MachinesChanged (Some machines_)) =>
      let '(p', st) := processMachines machines_
                         (mkProvisioner (environ p) (p_tomb p) e m) st in
      Next (mkSystem p' st AtInnerLoop)
  end.

(** The goroutine: one [select] at a time. *)
Definition step (ev : event) (s : System) : outcome System :=
  match at_ s with
  | AtLoop => loop_iteration ev s
  | AtInnerLoop => innerLoop_iteration ev s
  | Exited => Blocked
  end.

Fixpoint run (evs : list event) (s : System) : outcome System :=
  match evs with
  | [] => Next s
  | ev :: evs =>
      match step ev s with
      | Next s' => run evs s'
      | Blocked => Blocked
      | Panic => Panic
      end
  end.

(** *** Stop *)

(** The statement a call of [Stop] is about to execute, or what it returned. *)
Inductive stop_pc : Type :=
| AtKill                     (* p.tomb.Kill(nil) *)
| AtInvalidateEnvironment    (* p.environment.invalidate() *)
| AtInvalidateMachines       (* p.machines.invalidate() *)
| AtWait                     (* return p.tomb.Wait() *)
| Returned (err : option error).

(** One statement of [Stop], run by the caller's goroutine on the shared
    Provisioner.  [Blocked]: [Wait] does not return yet (or the call is over). *)
Definition Stop_statement (pc : stop_pc) (s : System) : outcome (stop_pc * System) :=
  let p := prov s in
  match pc with
  | AtKill =>
      Next (AtInvalidateEnvironment,
            mkSystem (mkProvisioner (environ p) (tomb.Kill None (p_tomb p))
                                    (p_environment p) (p_machines p))
                     (world s) (at_ s))
  | AtInvalidateEnvironment =>
      let '(e, st) := environment_invalidate (p_environment p) (world s) in
      Next (AtInvalidateMachines,
            mkSystem (mkProvisioner (environ p) (p_tomb p) e (p_machines p)) st (at_ s))
  | AtInvalidateMachines =>
      let '(m, st) := machines_invalidate (p_machines p) (world s) in
      Next (AtWait,
            mkSystem (mkProvisioner (environ p) (p_tomb p) (p_environment p) m) st (at_ s))
  | AtWait =>
      match tomb.Wait (p_tomb p) with
      | Some err => Next (Returned err, s)
      | None => Blocked
      end
  | Returned _ => Blocked
  end.

(** The provisioner's goroutine together with the calls of [Stop], each named
    by a number; a call that has not started is at its first statement. *)
Record Process := mkProcess {
  sys : System;
  calls : nat -> stop_pc
}.

(** What happens next: the goroutine's [select] takes a case, or a call of
    [Stop] executes its next statement.  Each is taken here as a whole, with
    nothing in between; every run of such steps is a run the program has, but
    not the other way round (see the unsynchronised runs further on). *)
Inductive action : Type :=
| Select (ev : event)
| StopStatement (i : nat).

Definition set_call (i : nat) (pc : stop_pc) (f : nat -> stop_pc) : nat -> stop_pc :=
  fun j => if Nat.eqb j i then pc else f j.

Definition act (a : action) (P : Process) : outcome Process :=
  match a with
  | Select ev =>
      match step ev (sys P) with
      | Next s => Next (mkProcess s (calls P))
      | Blocked => Blocked
      | Panic => Panic
      end
  | StopStatement i =>
      match Stop_statement (calls P i) (sys P) with
      | Next (pc, s) => Next (mkProcess s (set_call i pc (calls P)))
      | Blocked => Blocked
      | Panic => Panic
      end
  end.

Fixpoint interleave (acts : list action) (P : Process) : outcome Process :=
  match acts with
  | [] => Next P
  | a :: acts =>
      match act a P with
      | Next P' => interleave acts P'
      | Blocked => Blocked
      | Panic => Panic
      end
  end.

Definition start (st : World) : Process :=
  mkProcess (NewProvisioner st) (fun _ => AtKill).

(** A whole call of [Stop] by caller [i] with nothing in between. *)
Definition Stop (i : nat) : list action :=
  [StopStatement i; StopStatement i; StopStatement i; StopStatement i].

(** *** Observations on states and runs *)

Definition handles_held (s : System) : nat :=
  match environ (prov s) with
  | Some _ => 1
  | None => 0
  end.

Definition is_construction (c : Call) : bool :=
  match c with
  | CallNewEnviron _ => true
  | _ => false
  end.

Definition is_successful_construction (c : Call) : bool :=
  match c with
  | CallNewEnviron m => match NewEnviron m with inl _ => true | inr _ => false end
  | _ => false
  end.

Definition is_SetConfig (c : Call) : bool :=
  match c with
  | CallSetConfig _ => true
  | _ => false
  end.

(** The calls of [environs.NewEnviron] so far, and those that succeeded. *)
Definition constructions (st : World) : nat :=
  List.length (filter is_construction (trace st)).

Definition successful_constructions (st : World) : nat :=
  List.length (filter is_successful_construction (trace st)).

Definition applications (st : World) : nat :=
  List.length (filter is_SetConfig (trace st)).

Definition enters_innerLoop (s s' : System) : bool :=
  match at_ s, at_ s' with
  | AtLoop, AtInnerLoop => true
  | _, _ => false
  end.

(** How often a run goes from the [select] of [loop] into [innerLoop]. *)
Fixpoint activations (evs : list event) (s : System) : nat :=
  match evs with
  | [] => 0
  | ev :: evs =>
      match step ev s with
      | Next s' => (if enters_innerLoop s s' then 1 else 0) + activations evs s'
      | Blocked => 0
      | Panic => 0
      end
  end.

(** The watchers an instance holds, as a list. *)
Definition held (w : option nat) : list nat :=
  match w with
  | Some x => [x]
  | None => []
  end.




(** *** Invariants of the running process *)

(** Each subscription holds exactly the watchers of its kind that are live. *)
Definition watchers_ok (s : System) : Prop :=
  config_watchers (world s) = held (e_watcher (p_environment (prov s)))
  /\ machines_watchers (world s) = held (m_watcher (p_machines (prov s))).

(** [innerLoop] runs with a handle. *)
Definition handle_ok (s : System) : Prop :=
  at_ s = AtInnerLoop -> environ (prov s) <> None.

(** Only [Kill(nil)] and [Done] reach the tomb: there is never a reason, and
    the tomb is dead exactly when [loop] has returned. *)
Definition tomb_ok (s : System) : Prop :=
  tomb.reason (p_tomb (prov s)) = None
  /\ (tomb.dead (p_tomb (prov s)) = true <-> at_ s = Exited).

(** A call of [Stop] past its first statement has requested cancellation; one
    that returned did so after [loop] returned, and with no error. *)
Definition calls_ok (P : Process) : Prop :=
  forall i,
    (calls P i <> AtKill -> tomb.dying (p_tomb (prov (sys P))) = true)
    /\ (forall err, calls P i = Returned err -> at_ (sys P) = Exited /\ err = None).

(** Before any cancellation: the tomb is untouched, [loop] has not returned,
    and there is a handle exactly in [innerLoop]. *)
Definition undisturbed (s : System) : Prop :=
  p_tomb (prov s) = tomb.zero
  /\ at_ s <> Exited
  /\ (environ (prov s) <> None <-> at_ s = AtInnerLoop).

(** *** Schedules that bring a call of Stop to its return *)

(** The statements of call [i] that come before its [Wait]. *)
Definition Stop_rest (i : nat) (pc : stop_pc) : list action :=
  match pc with
  | AtKill => [StopStatement i; StopStatement i; StopStatement i]
  | AtInvalidateEnvironment => [StopStatement i; StopStatement i]
  | AtInvalidateMachines => [StopStatement i]
  | AtWait => []
  | Returned _ => []
  end.

(** The goroutine chooses the Dying case until [loop] returns. *)
Definition goroutine_exit (c : control) : list action :=
  match c with
  | AtInnerLoop => [Select Dying; Select Dying]
  | AtLoop => [Select Dying]
  | Exited => []
  end.

Definition Stop_return (i : nat) (pc : stop_pc) : list action :=
  match pc with
  | Returned _ => []
  | _ => [StopStatement i]
  end.

Definition completion (i : nat) (P : Process) : list action :=
  Stop_rest i (calls P i) ++ goroutine_exit (at_ (sys P)) ++ Stop_return i (calls P i).

(** *** The specification's reading of a closed configuration channel *)

(** In [innerLoop], a closed configuration channel would leave the Controller
    at the [select] of [loop] without subscription and without handle, so
    that the next valid snapshot is answered by one more call of
    [environs.NewEnviron]. *)
Definition falls_back_to_Idle (s : System) : Prop :=
  exists s',
    step (Receive (EnvironmentChange None)) s = Next s'
    /\ e_watcher (p_environment (prov s')) = None
    /\ environ (prov s') = None
    /\ at_ s' = AtLoop
    /\ forall config env,
         NewEnviron (Map config) = inl env ->
         exists s'',
           step (Receive (EnvironmentChange (Some config))) s' = Next s''
           /\ constructions (world s'') = S (constructions (world s')).

End Provisioner.

(** ** A provider to run the model on: the dummy environment

    Snapshots are key/value lists.  A snapshot whose type is dummy
    yields an environment; one without a type is no configuration. *)

Module dummy.

Definition Attrs := list (string * string).

Fixpoint get (k : string) (m : Attrs) : option string :=
  match m with
  | [] => None
  | (k', v) :: m => if String.eqb k k' then Some v else get k m
  end.

Definition newEnviron (m : Attrs) : Attrs + string :=
  match get "type" m with
  | Some t => if String.eqb t "dummy" then inl m else inr "no registered provider"
  | None => inr "no type in configuration"
  end.

Definition newConfig (m : Attrs) : Attrs + string :=
  match get "type" m with
  | Some _ => inl m
  | None => inr "no type in configuration"
  end.

#[export] Instance collaborators : Collaborators := {|
  error := string;
  ConfigNode := Attrs;
  ConfigMap := Attrs;
  Map := fun n => n;
  MachinesChange := list nat;
  Config := Attrs;
  Environ := Attrs;
  NewEnviron := newEnviron;
  NewConfig := newConfig;
  SetConfig := fun _ c => c;
  WatcherStop := fun _ => None
|}.

Definition good : Attrs := [("type", "dummy")].
Definition good_extra : Attrs := [("type", "dummy"); ("extra", "x")].
Definition bad : Attrs := [("name", "untyped")].

(** The Controller after one valid snapshot: in [innerLoop], with a handle. *)
Definition active : System :=
  match step (Receive (EnvironmentChange (Some good))) (NewProvisioner initial_world) with
  | Next s => s
  | _ => NewProvisioner initial_world
  end.

(** [Stop] is called while the Controller is in [innerLoop] and a second
    snapshot is pending: the goroutine takes the Dying case in [innerLoop],
    and back in [loop] its [select] takes the snapshot. *)
Definition cancelled_while_Active : list action :=
  [ Select (Receive (EnvironmentChange (Some good)));
    StopStatement 0;
    Select Dying ].

Definition pending_snapshot : action :=
  Select (Receive (EnvironmentChange (Some good_extra))).

(** A sequence of deliveries without cancellation, and where it leads. *)
Definition deliveries : list delivery :=
  [ EnvironmentChange (Some bad);
    EnvironmentChange (Some good);
    MachinesChanged (Some [1; 2]);
    EnvironmentChange None;
    EnvironmentChange (Some good_extra);
    MachinesChanged None ].

Definition delivered : System :=
  match run (map Receive deliveries) (NewProvisioner initial_world) with
  | Next s => s
  | _ => NewProvisioner initial_world
  end.

End dummy.

(** ** The rest of errors.go *)

Module state.

Import Errors.

(** [strings.Join]. *)
Fixpoint Join (elems : list string) (sep : string) : string :=
  match elems with
  | [] => ""
  | a :: rest =>
      match rest with
      | [] => a
      | _ :: _ => a ++ sep ++ Join rest sep
      end
  end.

(** The [Error] method of [*ErrProviderIDNotUnique]; the verb is [%s]. *)
Definition ErrProviderIDNotUnique_Error (e : ErrProviderIDNotUnique) : string :=
  let idList := Join (duplicateIDs e) ", " in
  "ProviderID(s) not unique: " ++ idList.

(** A value of static type [error]: nil, or a dynamic type with the method. *)
Definition is_error (e : iface) : bool :=
  match e with
  | None => true
  | Some v => implements_error v
  end.

Section OnAbort.

(** The comparison with [txn.ErrAborted] of gopkg.in/mgo.v2/txn, which is a
    fixed error that is not nil. *)
Variable is_ErrAborted : value -> bool.

Definition equals_ErrAborted (e : iface) : bool :=
  match e with
  | Some v => is_ErrAborted v
  | None => false
  end.

Definition onAbort (txnErr err : iface) : iface :=
  if equals_ErrAborted txnErr || equals_ErrAborted (Cause txnErr)
  then Trace err
  else Trace txnErr.

(** The test of [onAbort] by itself: is the transaction error, or its cause,
    [txn.ErrAborted]? *)
Definition aborted (txnErr : iface) : bool :=
  equals_ErrAborted txnErr || equals_ErrAborted (Cause txnErr).

End OnAbort.

(** An error that stands for [txn.ErrAborted] when the model is run. *)
Definition aborted_text (v : value) : bool :=
  match v with
  | ErrorString s => String.eqb s "transaction aborted"
  | _ => false
  end.

End state.

(** ** The rest of the provisioning agent *)

Section Agent.

Context {C : Collaborators}.

(** [ProvisioningAgent.Run]: it has returned an error, or it is in
    [p.tomb.Wait()] with the provisioner it started. *)
Inductive Run_state : Type :=
| RunReturned (err : option error)
| RunWaiting (s : System).

Definition Run_Wait (s : System) : Run_state :=
  match tomb.Wait (p_tomb (prov s)) with
  | Some err => RunReturned err
  | None => RunWaiting s
  end.

(** [Run], given what [state.Open] returned and the cases the selects of the
    goroutine have taken by the time [Wait] is looked at.  The Provisioner is
    a local variable of [Run]: nothing else can reach it. *)
Definition Run (opened : World + error) (evs : list event) : outcome Run_state :=
  match opened with
  | inr err => Next (RunReturned (Some err))
  | inl st =>
      match run evs (NewProvisioner st) with
      | Next s => Next (Run_Wait s)
      | Blocked => Blocked
      | Panic => Panic
      end
  end.

(** Every [SetConfig] in a trace (most recent call first) directly follows
    the [NewConfig] call that returned its argument. *)
Fixpoint applied_after_validation (tr : list Call) : Prop :=
  match tr with
  | [] => True
  | CallSetConfig c :: rest =>
      match rest with
      | CallNewConfig m :: _ => NewConfig m = inl c
      | _ => False
      end
      /\ applied_after_validation rest
  | _ :: rest => applied_after_validation rest
  end.

(** What a snapshot received in [innerLoop] does to the handle. *)
Definition updated (env : Environ) (change : ConfigNode) : Environ :=
  match NewConfig (Map change) with
  | inl config => SetConfig env config
  | inr _ => env
  end.

(** The handle after a sequence of snapshots, read off [loop] and
    [innerLoop]: built from the first snapshot that [environs.NewEnviron]
    accepts, then updated by each later one. *)
Fixpoint handle_after (snapshots : list ConfigNode) : option Environ :=
  match snapshots with
  | [] => None
  | config :: rest =>
      match NewEnviron (Map config) with
      | inl env => Some (fold_left updated rest env)
      | inr _ => handle_after rest
      end
  end.

(** The snapshots up to and including the first that is accepted. *)
Fixpoint constructed_from (snapshots : list ConfigNode) : nat :=
  match snapshots with
  | [] => 0
  | config :: rest =>
      match NewEnviron (Map config) with
      | inl _ => 1
      | inr _ => S (constructed_from rest)
      end
  end.

Definition snapshot (config : ConfigNode) : event :=
  Receive (EnvironmentChange (Some config)).

Definition machines_change (change : MachinesChange) : event :=
  Receive (MachinesChanged (Some change)).

(** Nothing of [innerLoop] has happened yet. *)
Definition never_active (s : System) : Prop :=
  at_ s <> AtInnerLoop
  /\ environ (prov s) = None
  /\ applications (world s) = 0
  /\ m_watcher (p_machines (prov s)) = None
  /\ machines_watchers (world s) = [].

(** As long as no call of [environs.NewEnviron] has succeeded, nothing of
    [innerLoop] has happened. *)
Definition before_first_construction (s : System) : Prop :=
  successful_constructions (world s) = 0 -> never_active s.

End Agent.

(** ** Stop and the goroutine without synchronisation

    [Stop] runs on its caller's goroutine.  Its two [invalidate] calls read
    and write the [watcher] fields that the provisioner's goroutine reads and
    writes in [changes] and [invalidate], and nothing orders the statements
    of the one against those of the other.  What such statements can leave
    behind when they fall between each other is not fixed by the sources, so
    it is not fixed here either: an interference puts anything at all into
    the two [watcher] fields and into the store with its watchers and trace.
    The handle is written by the provisioner's goroutine only, the tomb is
    synchronised, and where a goroutine is in its code is its own: these
    change by the statements as written and in no other way.  A run in which
    a method is called on a nil watcher goes on or panics as the state
    package decides; the runs below are those the process survives. *)

Section Unsynchronised.

Context {C : Collaborators}.

Inductive occurrence : Type :=
| Uninterrupted (a : action)
| Interference (e : environment) (m : machines) (st : World).

Definition interfere (e : environment) (m : machines) (st : World) (P : Process)
  : Process :=
  let p := prov (sys P) in
  mkProcess (mkSystem (mkProvisioner (environ p) (p_tomb p) e m) st (at_ (sys P)))
            (calls P).

Definition occur (o : occurrence) (P : Process) : outcome Process :=
  match o with
  | Uninterrupted a => act a P
  | Interference e m st => Next (interfere e m st P)
  end.

Fixpoint unsynchronised (os : list occurrence) (P : Process) : outcome Process :=
  match os with
  | [] => Next P
  | o :: os =>
      match occur o P with
      | Next P' => unsynchronised os P'
      | Blocked => Blocked
      | Panic => Panic
      end
  end.

(** What holds of handle, tomb and calls whatever happens to the watchers. *)
Definition steady (P : Process) : Prop :=
  handle_ok (sys P) /\ tomb_ok (sys P) /\ calls_ok P.

End Unsynchronised.

Module scenario.

#[local] Existing Instance dummy.collaborators.

(** [Stop] has run up to its [Wait] before the goroutine reached its first
    [select]. *)
Definition stopping : Process :=
  match interleave (C := dummy.collaborators)
          [StopStatement 0; StopStatement 0; StopStatement 0] (start initial_world) with
  | Next P => P
  | _ => start initial_world
  end.

(** The Controller in innerLoop when [Stop] has requested cancellation. *)
Definition dying_active : System :=
  match interleave (C := dummy.collaborators)
          [Select (Receive (EnvironmentChange (Some dummy.good))); StopStatement 0]
          (start initial_world) with
  | Next P => sys P
  | _ => NewProvisioner initial_world
  end.

(** Snapshots are rejected, then the configuration channel closes. *)
Definition idle_run : list action :=
  [ Select (Receive (EnvironmentChange (Some dummy.bad)));
    Select (Receive (EnvironmentChange None));
    StopStatement 3;
    Select (Receive (EnvironmentChange (Some dummy.bad))) ].

Definition idle : Process :=
  match interleave (C := dummy.collaborators) idle_run (start initial_world) with
  | Next P => P
  | _ => start initial_world
  end.

(** The deliveries of [dummy.deliveries], taken by the goroutine. *)
Definition applied_run : list action :=
  map (fun d => Select (Receive d)) dummy.deliveries.

Definition applied : Process :=
  match interleave (C := dummy.collaborators) applied_run (start initial_world) with
  | Next P => P
  | _ => start initial_world
  end.

(** What [Run] sees: a snapshot and a machines change have been received. *)
Definition received : list event :=
  [ snapshot dummy.good; machines_change [1; 2] ].

Definition waiting : System :=
  match run (C := dummy.collaborators) received (NewProvisioner initial_world) with
  | Next s => s
  | _ => NewProvisioner initial_world
  end.

(** A call of [Stop] whose first [invalidate] is crossed by the goroutine.
    [Stop] has stopped watcher 0.  The goroutine, in [innerLoop] with
    machines watcher 1, receives from the closed channel, runs its own
    [invalidate], and at its next [select] starts watcher 2 and stores it.
    Only then [Stop] writes nil: watcher 2 is live and held by nobody. *)
Definition raced_run : list occurrence :=
  [ Uninterrupted (Select (Receive (EnvironmentChange (Some dummy.good))));
    Uninterrupted (StopStatement 0);
    Uninterrupted (StopStatement 0);
    Interference (mkEnvironment None) (mkMachines (Some 1))
      (mkWorld 3 [2] [1]
         [ Printf "provisioner: environment watcher exited: %v" [None];
           Printf "provisioner: environment watcher exited: %v" [None];
           Printf "provisioning: valid environment configured" [];
           CallNewEnviron dummy.good ]);
    Uninterrupted (StopStatement 0);
    Uninterrupted (Select Dying);
    Uninterrupted (Select Dying);
    Uninterrupted (StopStatement 0) ].

Definition raced : Process :=
  match unsynchronised (C := dummy.collaborators) raced_run (start initial_world) with
  | Next P => P
  | _ => start initial_world
  end.

End scenario.

(** ** Proof automation for the model *)

(** Case analysis on whatever a definition of the model branches on,
    innermost test first. *)
Ltac innermost x :=
  lazymatch x with
  | context [match _ with _ => _ end] => fail
  | _ => idtac
  end.

Ltac branch :=
  repeat match goal with
    | H : context [match ?x with _ => _ end] |- _ =>
        innermost x; destruct x eqn:?; simpl in H
    | |- context [match ?x with _ => _ end] =>
        innermost x; destruct x eqn:?; simpl
    end.

Ltac open_step :=
  unfold step, loop_iteration, innerLoop_iteration, Stop_statement, processMachines,
    environment_changes, machines_changes, environment_invalidate, machines_invalidate,
    WatchEnvironConfig, WatchMachines, ConfigWatcher_Stop, MachinesWatcher_Stop,
    log_Printf, record_call, tomb.Wait, tomb.Dying, tomb.Done, tomb.Kill in *;
  simpl in *.

(** ** Properties: error classification *)

Section ErrorClassification.

Import Errors.

Lemma classify_shape (errors_Cause : iface -> iface)
    (is_T : value -> bool) (Is : iface -> result bool) :
  (forall err, Is err =
     match err with
     | None => Returns false
     | Some v =>
         match assert_error v with
         | Panics => Panics
         | Returns e =>
             Returns (comma_ok is_T
                        (match errors_Cause (Some e) with
                         | Some _ => errors_Cause (Some e)
                         | None => err
                         end))
         end
     end) ->
  classifies errors_Cause Is is_T.
Proof.
  intros Hshape. unfold classifies. split; [ | split; [ | split ] ].
  - now rewrite Hshape.
  - intros v c Herr Hcause. rewrite Hshape. unfold assert_error.
    rewrite Herr, Hcause. reflexivity.
  - intros v Herr Hcause. rewrite Hshape. unfold assert_error.
    rewrite Herr, Hcause. reflexivity.
  - intros v Herr. rewrite Hshape. unfold assert_error. now rewrite Herr.
Qed.

(** C10.  Whatever errors.Cause returns, each of the three predicates
    returns false on nil, answers for the cause of an error that has one and
    for the error itself when it has none, and panics on a non-nil value
    whose dynamic type is not an error. *)
Theorem error_predicates_classify (errors_Cause : iface -> iface) :
  classifies errors_Cause
    (IsCharmAlreadyUploadedError errors_Cause) is_ErrCharmAlreadyUploaded
  /\ classifies errors_Cause
       (IsProviderIDNotUniqueError errors_Cause) is_ErrProviderIDNotUnique
  /\ classifies errors_Cause
       (IsParentDeviceHasChildrenError errors_Cause) is_ErrParentDeviceHasChildren.
Proof.
  split; [ | split ]; apply classify_shape; intros [v|]; reflexivity.
Qed.

Lemma error_predicates_classify_witness :
  IsProviderIDNotUniqueError Cause
    (Trace (NewProviderIDNotUniqueError ["eni-1"; "eni-2"])) = Returns true
  /\ IsParentDeviceHasChildrenError Cause
       (newParentDeviceHasChildrenError "eth0" 2) = Returns true
  /\ IsCharmAlreadyUploadedError Cause
       (Some (ErrorString "not found or dead")) = Returns false
  /\ IsCharmAlreadyUploadedError Cause (Some (GoInt 7)) = Panics.
Proof.
  destruct (error_predicates_classify Cause) as [Hcharm [Hid Hparent]].
  destruct Hcharm as [_ [Hcause [_ Hpanic]]].
  destruct Hid as [_ [Hwrapped _]].
  destruct Hparent as [_ [Hself _]].
  split.
  { exact (Hwrapped
             (JujuErr ""
                (Some (PtrErrProviderIDNotUnique {| duplicateIDs := ["eni-1"; "eni-2"] |}))
                (Some (PtrErrProviderIDNotUnique {| duplicateIDs := ["eni-1"; "eni-2"] |})))
             (PtrErrProviderIDNotUnique {| duplicateIDs := ["eni-1"; "eni-2"] |})
             eq_refl eq_refl). }
  split.
  { exact (Hself
             (PtrErrParentDeviceHasChildren {| parentName := "eth0"; numChildren := 2 |})
             (PtrErrParentDeviceHasChildren {| parentName := "eth0"; numChildren := 2 |})
             eq_refl eq_refl). }
  split.
  { exact (Hcause (ErrorString "not found or dead") (ErrorString "not found or dead")
             eq_refl eq_refl). }
  exact (Hpanic (GoInt 7) eq_refl).
Defined.

End ErrorClassification.

(** ** Properties: the two subscriptions *)

Section Subscriptions.

Context {C : Collaborators}.







(** The other kind of watcher is out of a subscription's reach. *)
Lemma environment_changes_machines (e : environment) (st : World) :
  machines_watchers (snd (environment_changes e st)) = machines_watchers st.
Proof. unfold environment_changes. now destruct (e_watcher e). Qed.

Lemma environment_invalidate_machines (e : environment) (st : World) :
  machines_watchers (snd (environment_invalidate e st)) = machines_watchers st.
Proof. unfold environment_invalidate. now destruct (e_watcher e). Qed.

Lemma machines_changes_config (m : machines) (st : World) :
  config_watchers (snd (machines_changes m st)) = config_watchers st.
Proof. unfold machines_changes. now destruct (m_watcher m). Qed.

Lemma machines_invalidate_config (m : machines) (st : World) :
  config_watchers (snd (machines_invalidate m st)) = config_watchers st.
Proof. unfold machines_invalidate. now destruct (m_watcher m). Qed.



End Subscriptions.

(** ** Properties: the goroutine and Stop *)

Section Controller.

Context {C : Collaborators}.


Lemma step_handle (ev : event) (s s' : System) :
  handle_ok s -> step ev s = Next s' -> handle_ok s'.
Proof.
  unfold handle_ok. destruct s as [[env t [ew] [mw]] st c]. simpl.
  intros Hh H. open_step.
  destruct c, ev as [|[[cfg|]|[mc|]]]; simpl in *;
    branch; try discriminate; inversion H; subst; simpl;
    try discriminate; auto.
Qed.

Lemma step_no_panic (ev : event) (s : System) :
  handle_ok s -> step ev s <> Panic.
Proof.
  unfold handle_ok. destruct s as [[env t [ew] [mw]] st c]. simpl.
  intros Hh. open_step.
  destruct c, ev as [|[[cfg|]|[mc|]]]; simpl in *;
    branch; try discriminate; intros _; now apply Hh.
Qed.

Lemma Stop_statement_handle (pc pc' : stop_pc) (s s' : System) :
  handle_ok s -> Stop_statement pc s = Next (pc', s') -> handle_ok s'.
Proof.
  unfold handle_ok. destruct s as [[env t [ew] [mw]] st c]. simpl.
  intros Hh H. open_step.
  destruct pc; simpl in *; branch; try discriminate; inversion H; subst; simpl; auto.
Qed.

Lemma step_tomb (ev : event) (s s' : System) :
  tomb_ok s -> step ev s = Next s' -> tomb_ok s'.
Proof.
  unfold tomb_ok. destruct s as [[env [dg dd rs] [ew] [mw]] st c]. simpl.
  intros [Hr Hd] H. open_step.
  destruct c, ev as [|[[cfg|]|[mc|]]]; simpl in *;
    branch; try discriminate; inversion H; subst; simpl;
    (split; [ reflexivity | ]);
    (split; intros H'; try discriminate; try reflexivity;
     try (apply Hd in H'; discriminate); try (now apply Hd)).
Qed.

Lemma Stop_statement_tomb (pc pc' : stop_pc) (s s' : System) :
  tomb_ok s -> Stop_statement pc s = Next (pc', s') -> tomb_ok s'.
Proof.
  unfold tomb_ok. destruct s as [[env [dg dd rs] [ew] [mw]] st c]. simpl.
  intros [Hr Hd] H. open_step.
  destruct pc; simpl in *; branch; try discriminate; inversion H; subst; simpl;
    (split; [ reflexivity | exact Hd ]).
Qed.

Lemma set_call_eq (i : nat) (pc : stop_pc) (f : nat -> stop_pc) :
  set_call i pc f i = pc.
Proof. unfold set_call. now rewrite Nat.eqb_refl. Qed.

Lemma set_call_ne (i j : nat) (pc : stop_pc) (f : nat -> stop_pc) :
  j <> i -> set_call i pc f j = f j.
Proof. unfold set_call. intros H. apply Nat.eqb_neq in H. now rewrite H. Qed.

Lemma stop_pc_AtKill_dec (pc : stop_pc) : {pc = AtKill} + {pc <> AtKill}.
Proof. destruct pc; (now left) || (right; discriminate). Qed.

Lemma step_dying (ev : event) (s s' : System) :
  step ev s = Next s' ->
  tomb.dying (p_tomb (prov s)) = true -> tomb.dying (p_tomb (prov s')) = true.
Proof.
  destruct s as [[env [dg dd rs] [ew] [mw]] st c]. simpl. intros H Hd. open_step.
  destruct c, ev as [|[[cfg|]|[mc|]]]; simpl in *;
    branch; try discriminate; inversion H; subst; simpl; auto.
Qed.

Lemma step_Exited (ev : event) (s : System) :
  at_ s = Exited -> step ev s = Blocked.
Proof. unfold step. now intros ->. Qed.

Lemma Stop_statement_effect (pc pc' : stop_pc) (s s' : System) :
  Stop_statement pc s = Next (pc', s') ->
  at_ s' = at_ s
  /\ environ (prov s') = environ (prov s)
  /\ (tomb.dying (p_tomb (prov s)) = true -> tomb.dying (p_tomb (prov s')) = true)
  /\ pc' <> AtKill
  /\ (pc = AtKill -> tomb.dying (p_tomb (prov s')) = true)
  /\ (forall err, pc' = Returned err ->
        tomb.dead (p_tomb (prov s)) = true /\ err = tomb.reason (p_tomb (prov s))).
Proof.
  destruct s as [[env [dg dd rs] [ew] [mw]] st c]. simpl. intros H. open_step.
  destruct pc; simpl in *; branch; try discriminate; inversion H; subst; simpl;
    repeat split; try discriminate; auto;
    try congruence.
Qed.

Lemma interleave_app (xs ys : list action) :
  forall P P', interleave xs P = Next P' ->
               interleave (xs ++ ys) P = interleave ys P'.
Proof.
  induction xs as [|a xs IH]; intros P P' H; simpl in *.
  - now inversion H.
  - destruct (act a P) as [P1| |]; try discriminate. now apply IH.
Qed.

(** *** The four statements of Stop, one at a time *)

Lemma act_Stop_AtKill (i : nat) (P : Process) :
  calls P i = AtKill ->
  exists P',
    act (StopStatement i) P = Next P'
    /\ calls P' i = AtInvalidateEnvironment
    /\ at_ (sys P') = at_ (sys P)
    /\ tomb.dying (p_tomb (prov (sys P'))) = true.
Proof.
  intros Hpc. simpl. rewrite Hpc. simpl. eexists. split; [ reflexivity | ].
  simpl. rewrite set_call_eq. auto.
Qed.

Lemma act_Stop_AtInvalidateEnvironment (i : nat) (P : Process) :
  calls P i = AtInvalidateEnvironment ->
  exists P',
    act (StopStatement i) P = Next P'
    /\ calls P' i = AtInvalidateMachines
    /\ at_ (sys P') = at_ (sys P)
    /\ p_tomb (prov (sys P')) = p_tomb (prov (sys P))
    /\ e_watcher (p_environment (prov (sys P'))) = None.
Proof.
  intros Hpc. unfold act. rewrite Hpc.
  unfold Stop_statement, environment_invalidate. simpl.
  eexists. split; [ reflexivity | ]. simpl. rewrite set_call_eq. auto.
Qed.

Lemma act_Stop_AtInvalidateMachines (i : nat) (P : Process) :
  calls P i = AtInvalidateMachines ->
  exists P',
    act (StopStatement i) P = Next P'
    /\ calls P' i = AtWait
    /\ at_ (sys P') = at_ (sys P)
    /\ p_tomb (prov (sys P')) = p_tomb (prov (sys P))
    /\ m_watcher (p_machines (prov (sys P'))) = None.
Proof.
  intros Hpc. unfold act. rewrite Hpc.
  unfold Stop_statement, machines_invalidate. simpl.
  eexists. split; [ reflexivity | ]. simpl. rewrite set_call_eq. auto.
Qed.

Lemma act_Stop_AtWait_blocks (i : nat) (P : Process) :
  calls P i = AtWait ->
  tomb.dead (p_tomb (prov (sys P))) = false ->
  act (StopStatement i) P = Blocked.
Proof.
  intros Hpc Hd. simpl. rewrite Hpc. simpl. unfold tomb.Wait. now rewrite Hd.
Qed.

Lemma act_Stop_AtWait_returns (i : nat) (P : Process) :
  calls P i = AtWait ->
  tomb.dead (p_tomb (prov (sys P))) = true ->
  exists P',
    act (StopStatement i) P = Next P'
    /\ calls P' i = Returned (tomb.reason (p_tomb (prov (sys P))))
    /\ sys P' = sys P.
Proof.
  intros Hpc Hd. simpl. rewrite Hpc. simpl. unfold tomb.Wait. rewrite Hd.
  eexists. split; [ reflexivity | ]. simpl. now rewrite set_call_eq.
Qed.

(** *** Choosing the Dying case *)

Lemma step_Dying_AtLoop (s : System) :
  at_ s = AtLoop -> tomb.dying (p_tomb (prov s)) = true ->
  exists s', step Dying s = Next s' /\ at_ s' = Exited
             /\ environ (prov s') = environ (prov s)
             /\ trace (world s') = trace (world s).
Proof.
  destruct s as [[env [dg dd rs] [ew] [mw]] st c]. simpl. intros -> ->.
  open_step. destruct ew; simpl; eexists; (split; [ reflexivity | auto ]).
Qed.

Lemma step_Dying_AtInnerLoop (s : System) :
  at_ s = AtInnerLoop -> tomb.dying (p_tomb (prov s)) = true ->
  exists s', step Dying s = Next s' /\ at_ s' = AtLoop
             /\ tomb.dying (p_tomb (prov s')) = true
             /\ environ (prov s') = environ (prov s)
             /\ trace (world s') = trace (world s).
Proof.
  destruct s as [[env [dg dd rs] [ew] [mw]] st c]. simpl. intros -> ->.
  open_step. destruct ew, mw; simpl; eexists; (split; [ reflexivity | auto ]).
Qed.

Lemma step_Dying_needs_cancellation (s : System) :
  tomb.dying (p_tomb (prov s)) = false -> step Dying s = Blocked.
Proof.
  destruct s as [[env [dg dd rs] [ew] [mw]] st c]. simpl. intros ->.
  open_step. destruct c, ew, mw; reflexivity.
Qed.

Lemma goroutine_exit_exits (P : Process) :
  tomb.dying (p_tomb (prov (sys P))) = true ->
  exists P',
    interleave (goroutine_exit (at_ (sys P))) P = Next P'
    /\ at_ (sys P') = Exited
    /\ calls P' = calls P.
Proof.
  intros Hd. destruct (at_ (sys P)) eqn:Hat; simpl.
  - destruct (step_Dying_AtLoop _ Hat Hd) as (s1 & Hs1 & Hx & _).
    rewrite Hs1. eexists. split; [ reflexivity | auto ].
  - destruct (step_Dying_AtInnerLoop _ Hat Hd) as (s1 & Hs1 & Hl & Hd1 & _).
    rewrite Hs1. simpl.
    destruct (step_Dying_AtLoop _ Hl Hd1) as (s2 & Hs2 & Hx & _).
    rewrite Hs2. eexists. split; [ reflexivity | auto ].
  - exists P. auto.
Qed.

End Controller.

(** ** The Controller, one event at a time *)

Section Transitions.

Context {C : Collaborators}.

(** C4.  In innerLoop, a snapshot that environs.NewConfig rejects is logged
    and skipped: the trace grows by the call of NewConfig and the log line
    only (so SetConfig is not called), the Controller stays in innerLoop,
    and the handle and with it the applied configuration are unchanged. *)
Theorem invalid_snapshot_skipped_in_Active
    (s : System) (change : ConfigNode) (err : error) :
  at_ s = AtInnerLoop ->
  NewConfig (Map change) = inr err ->
  exists s',
    step (Receive (EnvironmentChange (Some change))) s = Next s'
    /\ trace (world s')
       = Printf "provisioning: new configuration received, but was not valid: %v"
                [Some err]
         :: CallNewConfig (Map change) :: trace (world s)
    /\ applications (world s') = applications (world s)
    /\ at_ s' = AtInnerLoop
    /\ environ (prov s') = environ (prov s)
    /\ p_tomb (prov s') = p_tomb (prov s).
Proof.
  destruct s as [[env t [ew] [mw]] st c]. simpl. intros -> Hcfg.
  open_step. rewrite Hcfg.
  destruct ew, mw; simpl; eexists; (split; [ reflexivity | ]); simpl; auto 10.
Qed.

Lemma failed_construction_step (s : System) (config : ConfigNode) (err : error) :
  at_ s = AtLoop ->
  NewEnviron (Map config) = inr err ->
  exists s',
    step (Receive (EnvironmentChange (Some config))) s = Next s'
    /\ trace (world s')
       = Printf
           "provisioner: unable to create environment from supplied configuration: %v"
           [Some err]
         :: CallNewEnviron (Map config) :: trace (world s)
    /\ at_ s' = AtLoop
    /\ environ (prov s') = None
    /\ p_tomb (prov s') = p_tomb (prov s).
Proof.
  destruct s as [[env t [ew] [mw]] st c]. simpl. intros -> Hcfg.
  open_step. rewrite Hcfg.
  destruct ew; simpl; eexists; (split; [ reflexivity | ]); simpl; auto 10.
Qed.

Lemma failed_constructions_run (configs : list ConfigNode) :
  forall s,
    at_ s = AtLoop ->
    Forall (fun config => exists err, NewEnviron (Map config) = inr err) configs ->
    exists s',
      run (map (fun config => Receive (EnvironmentChange (Some config))) configs) s
      = Next s'
      /\ at_ s' = AtLoop
      /\ p_tomb (prov s') = p_tomb (prov s)
      /\ successful_constructions (world s') = successful_constructions (world s).
Proof.
  induction configs as [|config configs IH]; intros s Hat Hall.
  - exists s. simpl. auto.
  - inversion Hall as [|? ? [err Herr] Hrest]; subst.
    destruct (failed_construction_step s config err Hat Herr)
      as (s1 & Hs1 & Htr & Hat1 & _ & Ht1).
    destruct (IH s1 Hat1 Hrest) as (s' & Hrun & Hat' & Ht' & Hn).
    exists s'. cbn [map run]. rewrite Hs1.
    repeat split; try congruence.
    rewrite Hn. unfold successful_constructions. rewrite Htr. simpl.
    now rewrite Herr.
Qed.

(** C5.  At the select of loop, a snapshot for which environs.NewEnviron
    fails is logged and the Controller stays there, with its tomb untouched;
    so it does after any number of such snapshots. *)
Theorem failed_construction_stays_Idle (s : System) :
  at_ s = AtLoop ->
  (forall config err,
      NewEnviron (Map config) = inr err ->
      exists s',
        step (Receive (EnvironmentChange (Some config))) s = Next s'
        /\ trace (world s')
           = Printf
               "provisioner: unable to create environment from supplied configuration: %v"
               [Some err]
             :: CallNewEnviron (Map config) :: trace (world s)
        /\ at_ s' = AtLoop
        /\ p_tomb (prov s') = p_tomb (prov s))
  /\ (forall configs,
        Forall (fun config => exists err, NewEnviron (Map config) = inr err) configs ->
        exists s',
          run (map (fun config => Receive (EnvironmentChange (Some config))) configs) s
          = Next s'
          /\ at_ s' = AtLoop
          /\ p_tomb (prov s') = p_tomb (prov s)).
Proof.
  intros Hat. split.
  - intros config err Herr.
    destruct (failed_construction_step s config err Hat Herr)
      as (s' & Hs & Htr & Hat' & _ & Ht).
    exists s'. auto.
  - intros configs Hall.
    destruct (failed_constructions_run configs s Hat Hall) as (s' & Hrun & Hat' & Ht & _).
    exists s'. auto.
Qed.

(** C6.  In innerLoop, a closed machines channel invalidates the machines
    subscription and nothing else: the Controller stays in innerLoop, keeps
    its handle and its tomb, and an environment subscription that was there
    is still there, with the same live watcher. *)
Theorem closed_machines_channel_keeps_Active (s : System) :
  at_ s = AtInnerLoop ->
  exists s',
    step (Receive (MachinesChanged None)) s = Next s'
    /\ m_watcher (p_machines (prov s')) = None
    /\ at_ s' = AtInnerLoop
    /\ environ (prov s') = environ (prov s)
    /\ p_tomb (prov s') = p_tomb (prov s)
    /\ e_watcher (p_environment (prov s')) <> None
    /\ (forall w,
          e_watcher (p_environment (prov s)) = Some w ->
          e_watcher (p_environment (prov s')) = Some w
          /\ config_watchers (world s') = config_watchers (world s)).
Proof.
  destruct s as [[env t [ew] [mw]] st c]. simpl. intros ->.
  open_step.
  destruct ew, mw; simpl; eexists; (split; [ reflexivity | ]); simpl;
    repeat split; try discriminate; try congruence.
Qed.

Lemma snapshot_in_Active (s : System) (env : Environ) (change : ConfigNode) :
  at_ s = AtInnerLoop ->
  environ (prov s) = Some env ->
  exists s',
    step (Receive (EnvironmentChange (Some change))) s = Next s'
    /\ constructions (world s') = constructions (world s)
    /\ at_ s' = AtInnerLoop
    /\ (forall config,
          NewConfig (Map change) = inl config ->
          environ (prov s') = Some (SetConfig env config)
          /\ applications (world s') = S (applications (world s))).
Proof.
  destruct s as [[e t [ew] [mw]] st c]. simpl. intros -> ->.
  open_step.
  destruct (NewConfig (Map change)) as [config|err] eqn:Hcfg;
    destruct ew, mw; simpl; eexists; (split; [ reflexivity | ]); simpl;
    (split; [ reflexivity | ]); (split; [ reflexivity | ]);
    intros config' Hc; inversion Hc; subst; auto.
Qed.

(** C1, as the code has it.  In innerLoop, a closed configuration channel
    invalidates the configuration subscription and that is all: the
    Controller stays in innerLoop and keeps its handle.  The next snapshot is
    answered without any call of environs.NewEnviron; when environs.NewConfig
    accepts it, it is applied to the handle that was kept. *)
Theorem closed_config_channel_keeps_Active (s : System) (env : Environ) :
  at_ s = AtInnerLoop ->
  environ (prov s) = Some env ->
  exists s',
    step (Receive (EnvironmentChange None)) s = Next s'
    /\ e_watcher (p_environment (prov s')) = None
    /\ at_ s' = AtInnerLoop
    /\ environ (prov s') = Some env
    /\ constructions (world s') = constructions (world s)
    /\ forall change,
         exists s'',
           step (Receive (EnvironmentChange (Some change))) s' = Next s''
           /\ constructions (world s'') = constructions (world s')
           /\ at_ s'' = AtInnerLoop
           /\ (forall config,
                 NewConfig (Map change) = inl config ->
                 environ (prov s'') = Some (SetConfig env config)
                 /\ applications (world s'') = S (applications (world s'))).
Proof.
  intros Hat Henv.
  assert (exists s',
             step (Receive (EnvironmentChange None)) s = Next s'
             /\ e_watcher (p_environment (prov s')) = None
             /\ at_ s' = AtInnerLoop
             /\ environ (prov s') = Some env
             /\ constructions (world s') = constructions (world s))
    as (s' & Hs & Hw & Hat' & Henv' & Hn).
  { destruct s as [[e t [ew] [mw]] st c]. simpl in *. subst c e.
    open_step.
    destruct ew, mw; simpl; eexists; (split; [ reflexivity | ]); simpl; auto. }
  exists s'. repeat split; auto.
  intros change. now apply snapshot_in_Active.
Qed.

End Transitions.

(** ** The Controller over whole runs *)

Section Runs.

Context {C : Collaborators}.

(** Every entry into innerLoop comes with one successful construction, and
    every successful construction with an entry. *)
Lemma step_counts (ev : event) (s s' : System) :
  step ev s = Next s' ->
  (if enters_innerLoop s s' then 1 else 0) + successful_constructions (world s)
  = successful_constructions (world s').
Proof.
  intros H.
  enough (match step ev s with
          | Next s1 =>
              (if enters_innerLoop s s1 then 1 else 0)
              + successful_constructions (world s)
              = successful_constructions (world s1)
          | _ => True
          end) as Hall by (now rewrite H in Hall).
  clear H. destruct s as [[env t [ew] [mw]] [nw cws mws tr] c].
  unfold successful_constructions, enters_innerLoop. open_step.
  destruct c, ev as [|[[cfg|]|[mc|]]], ew, mw; simpl;
    branch; try congruence; auto.
Qed.

Lemma run_counts (evs : list event) :
  forall s s',
    run evs s = Next s' ->
    activations evs s + successful_constructions (world s)
    = successful_constructions (world s').
Proof.
  induction evs as [|ev evs IH]; intros s s' H; simpl in *.
  - now inversion H.
  - destruct (step ev s) as [s1| |] eqn:Hs; try discriminate.
    rewrite <- (IH s1 s' H), <- (step_counts ev s s1 Hs). lia.
Qed.

Lemma step_undisturbed (d : delivery) (s s' : System) :
  undisturbed s -> step (Receive d) s = Next s' -> undisturbed s'.
Proof.
  unfold undisturbed. destruct s as [[env t [ew] [mw]] st c]. simpl.
  intros (Ht & Hx & Hiff) H. subst t. open_step.
  destruct c, d as [[cfg|]|[mc|]]; simpl in *;
    branch; try discriminate; inversion H; subst; simpl;
    (split; [ reflexivity | ]); (split; [ discriminate | ]);
    split; intros H'; try reflexivity; try discriminate; try (now apply Hiff);
    try (now apply Hiff in H'); try congruence.
Qed.

Lemma run_undisturbed (ds : list delivery) :
  forall s s', undisturbed s -> run (map Receive ds) s = Next s' -> undisturbed s'.
Proof.
  induction ds as [|d ds IH]; intros s s' Hu H; simpl in *.
  - now inversion H; subst.
  - destruct (step (Receive d) s) as [s1| |] eqn:Hs; try discriminate.
    eapply IH; [ eapply step_undisturbed; eauto | exact H ].
Qed.

Lemma NewProvisioner_undisturbed (st : World) : undisturbed (NewProvisioner st).
Proof.
  unfold undisturbed. simpl. repeat split; try discriminate; congruence.
Qed.

(** A delivery on the configuration channel is always taken. *)
Lemma config_delivery_taken (config : option ConfigNode) (s : System) :
  undisturbed s ->
  exists s', step (Receive (EnvironmentChange config)) s = Next s'.
Proof.
  unfold undisturbed. destruct s as [[env t [ew] [mw]] st c]. simpl.
  intros (Ht & Hx & Hiff). open_step.
  destruct c, config as [cfg|]; simpl; branch; eauto; try congruence;
    exfalso; assert (Hn : @None Environ <> None) by (now apply Hiff);
    congruence.
Qed.

Lemma config_deliveries_taken (configs : list (option ConfigNode)) :
  forall s,
    undisturbed s ->
    exists s', run (map (fun config => Receive (EnvironmentChange config)) configs) s
               = Next s'.
Proof.
  induction configs as [|config configs IH]; intros s Hu; simpl.
  - now exists s.
  - destruct (config_delivery_taken config s Hu) as (s1 & Hs1). rewrite Hs1.
    apply IH. eapply step_undisturbed; eauto.
Qed.

(** C3.  Every sequence of deliveries on the configuration channel is taken
    by the Controller.  After any sequence of deliveries, the Controller
    entered innerLoop as often as environs.NewEnviron succeeded, holds at
    most one handle, and holds one exactly when it is in innerLoop. *)
Theorem one_handle_exactly_in_Active (st : World) :
  (forall configs : list (option ConfigNode),
      exists s,
        run (map (fun config => Receive (EnvironmentChange config)) configs)
            (NewProvisioner st) = Next s)
  /\ (forall (ds : list delivery) (s : System),
        run (map Receive ds) (NewProvisioner st) = Next s ->
        activations (map Receive ds) (NewProvisioner st) + successful_constructions st
        = successful_constructions (world s)
        /\ handles_held s <= 1
        /\ (environ (prov s) <> None <-> at_ s = AtInnerLoop)).
Proof.
  split.
  - intros configs. apply config_deliveries_taken, NewProvisioner_undisturbed.
  - intros ds s H. split; [ | split ].
    + exact (run_counts _ _ _ H).
    + unfold handles_held. destruct (environ (prov s)); lia.
    + pose proof (run_undisturbed ds _ _ (NewProvisioner_undisturbed st) H) as Hu.
      apply Hu.
Qed.

End Runs.

(** ** Handle, tomb and calls under interference *)

Section Steady.

Context {C : Collaborators}.


Lemma act_steady (a : action) (P P' : Process) :
  steady P -> act a P = Next P' -> steady P'.
Proof.
  unfold steady. intros (Hh & Ht & Hc) H.
  destruct a as [ev|i]; simpl in H.
  - destruct (step ev (sys P)) as [s'| |] eqn:Hs; try discriminate.
    inversion H; subst P'; simpl.
    split; [ eapply step_handle; eauto | ].
    split; [ eapply step_tomb; eauto | ].
    intros i. destruct (Hc i) as [Hd He]. split.
    + intros Hi. eapply step_dying; eauto.
    + intros err Hi. destruct (He err Hi) as [Hx _].
      rewrite (step_Exited ev _ Hx) in Hs. discriminate.
  - destruct (Stop_statement (calls P i) (sys P)) as [[pc s']| |] eqn:Hs;
      try discriminate.
    inversion H; subst P'; simpl.
    split; [ eapply Stop_statement_handle; eauto | ].
    split; [ eapply Stop_statement_tomb; eauto | ].
    destruct (Stop_statement_effect _ _ _ _ Hs) as (Hat & _ & Hmono & Hpc & Hkill & Hret).
    destruct Ht as [Hreason Hdead].
    intros j. destruct (Hc j) as [Hd He]. simpl.
    destruct (Nat.eq_dec j i) as [->|Hne];
      [ rewrite set_call_eq | rewrite set_call_ne by exact Hne ].
    + split.
      * intros _. destruct (stop_pc_AtKill_dec (calls P i)) as [Hk|Hk];
          [ now apply Hkill | apply Hmono; now apply Hd ].
      * intros err Herr. destruct (Hret err Herr) as [Hdd ->].
        rewrite Hat. split; [ now apply Hdead | exact Hreason ].
    + rewrite Hat. split.
      * intros Hj. apply Hmono. now apply Hd.
      * exact He.
Qed.

Lemma interfere_steady (e : environment) (m : machines) (st : World) (P : Process) :
  steady P -> steady (interfere e m st P).
Proof. unfold steady, handle_ok, tomb_ok, calls_ok, interfere. simpl. auto. Qed.

Lemma occur_steady (o : occurrence) (P P' : Process) :
  steady P -> occur o P = Next P' -> steady P'.
Proof.
  intros Hs H. destruct o as [a|e m st]; simpl in H.
  - eapply act_steady; eauto.
  - inversion H; subst. now apply interfere_steady.
Qed.

Lemma unsynchronised_steady (os : list occurrence) :
  forall P P', steady P -> unsynchronised os P = Next P' -> steady P'.
Proof.
  induction os as [|o os IH]; intros P P' Hs H; simpl in H.
  - now inversion H; subst.
  - destruct (occur o P) as [P1| |] eqn:Ho; try discriminate.
    eapply IH; [ eapply occur_steady; eauto | exact H ].
Qed.

Lemma interleave_steady (acts : list action) :
  forall P P', steady P -> interleave acts P = Next P' -> steady P'.
Proof.
  induction acts as [|a acts IH]; intros P P' Hs H; simpl in H.
  - now inversion H; subst.
  - destruct (act a P) as [P1| |] eqn:Ha; try discriminate.
    eapply IH; [ eapply act_steady; eauto | exact H ].
Qed.

Lemma start_steady : steady (start initial_world).
Proof.
  unfold steady, handle_ok, tomb_ok, calls_ok. simpl.
  repeat split; try discriminate; try congruence.
Qed.

Lemma Stop_rest_reaches_Wait_steady (i : nat) (P : Process) :
  steady P ->
  (forall err, calls P i <> Returned err) ->
  exists P',
    interleave (Stop_rest i (calls P i)) P = Next P'
    /\ calls P' i = AtWait
    /\ at_ (sys P') = at_ (sys P)
    /\ tomb.dying (p_tomb (prov (sys P'))) = true.
Proof.
  intros (_ & _ & Hc) Hnot. destruct (Hc i) as [Hd _].
  destruct (calls P i) eqn:Hpc; cbn [Stop_rest interleave].
  - destruct (act_Stop_AtKill i P Hpc) as (P1 & -> & Hpc1 & Hat1 & Hd1).
    destruct (act_Stop_AtInvalidateEnvironment i P1 Hpc1)
      as (P2 & -> & Hpc2 & Hat2 & Ht2 & _).
    destruct (act_Stop_AtInvalidateMachines i P2 Hpc2)
      as (P3 & -> & Hpc3 & Hat3 & Ht3 & _).
    exists P3. repeat split; congruence.
  - destruct (act_Stop_AtInvalidateEnvironment i P Hpc)
      as (P2 & -> & Hpc2 & Hat2 & Ht2 & _).
    destruct (act_Stop_AtInvalidateMachines i P2 Hpc2)
      as (P3 & -> & Hpc3 & Hat3 & Ht3 & _).
    exists P3. repeat split; try congruence.
    rewrite Ht3, Ht2. apply Hd. discriminate.
  - destruct (act_Stop_AtInvalidateMachines i P Hpc)
      as (P3 & -> & Hpc3 & Hat3 & Ht3 & _).
    exists P3. repeat split; try congruence.
    rewrite Ht3. apply Hd. discriminate.
  - exists P. repeat split; auto. apply Hd. discriminate.
  - now destruct (Hnot err).
Qed.

(** Whatever has happened to the watchers, any call of [Stop] can be brought
    to its return by statements that are not interrupted, and returns nil. *)
Lemma completion_returns_steady (i : nat) (P : Process) :
  steady P ->
  exists P', interleave (completion i P) P = Next P' /\ calls P' i = Returned None.
Proof.
  intros Hinv. unfold completion.
  destruct (calls P i) as [| | | |err] eqn:Hpc.
  5: { destruct Hinv as (_ & _ & Hc). destruct (Hc i) as [_ He].
       destruct (He err Hpc) as [Hx ->]. rewrite Hx. simpl. now exists P. }
  all: rewrite <- Hpc;
    destruct (Stop_rest_reaches_Wait_steady i P Hinv) as (P1 & H1 & Hpc1 & Hat1 & Hd1);
    [ intros err; rewrite Hpc; discriminate | ];
    rewrite (interleave_app _ _ _ _ H1);
    pose proof (interleave_steady _ _ _ Hinv H1) as Hinv1;
    rewrite <- Hat1;
    destruct (goroutine_exit_exits P1 Hd1) as (P2 & H2 & Hx2 & Hc2);
    rewrite (interleave_app _ _ _ _ H2);
    pose proof (interleave_steady _ _ _ Hinv1 H2) as Hinv2;
    destruct Hinv2 as (_ & [Hr Hdead] & _);
    assert (Hpc2 : calls P2 i = AtWait) by (now rewrite Hc2);
    destruct (act_Stop_AtWait_returns i P2 Hpc2 (proj2 Hdead Hx2)) as (P3 & H3 & Hpc3 & _);
    rewrite Hpc; cbn [Stop_return interleave]; rewrite H3;
    exists P3; (split; [ reflexivity | now rewrite Hpc3, Hr ]).
Qed.

End Steady.

(** ** The contracts of the subscriptions and of Stop *)

Section Contracts.

Context {C : Collaborators}.


(** C8.  For both subscriptions: invalidate leaves the instance without
    watcher; a watcher that was held is stopped (it is no longer live) and
    what its Stop returned goes to the log and nowhere else; without watcher
    invalidate changes nothing.  A closed channel, which is answered by
    invalidate, is a step like any other: the goroutine stays where it is
    and the tomb is as before, whatever Stop returned. *)
Theorem invalidate_releases_and_resets :
  (forall e st, e_watcher (fst (environment_invalidate e st)) = None)
  /\ (forall e st w,
        e_watcher e = Some w ->
        ~ In w (config_watchers (snd (environment_invalidate e st)))
        /\ config_watchers (snd (environment_invalidate e st))
           = remove Nat.eq_dec w (config_watchers st)
        /\ machines_watchers (snd (environment_invalidate e st)) = machines_watchers st
        /\ trace (snd (environment_invalidate e st))
           = Printf "provisioner: environment watcher exited: %v" [WatcherStop w]
             :: trace st)
  /\ (forall e st, e_watcher e = None -> environment_invalidate e st = (e, st))
  /\ (forall m st, m_watcher (fst (machines_invalidate m st)) = None)
  /\ (forall m st w,
        m_watcher m = Some w ->
        ~ In w (machines_watchers (snd (machines_invalidate m st)))
        /\ machines_watchers (snd (machines_invalidate m st))
           = remove Nat.eq_dec w (machines_watchers st)
        /\ config_watchers (snd (machines_invalidate m st)) = config_watchers st
        /\ trace (snd (machines_invalidate m st))
           = Printf "provisioner: machines watcher exited: %v" [WatcherStop w]
             :: trace st)
  /\ (forall m st, m_watcher m = None -> machines_invalidate m st = (m, st))
  /\ (forall s,
        at_ s <> Exited ->
        exists s',
          step (Receive (EnvironmentChange None)) s = Next s'
          /\ at_ s' = at_ s
          /\ p_tomb (prov s') = p_tomb (prov s)
          /\ e_watcher (p_environment (prov s')) = None)
  /\ (forall s,
        at_ s = AtInnerLoop ->
        exists s',
          step (Receive (MachinesChanged None)) s = Next s'
          /\ at_ s' = at_ s
          /\ p_tomb (prov s') = p_tomb (prov s)
          /\ m_watcher (p_machines (prov s')) = None).
Proof.
  split; [ | split; [ | split; [ | split; [ | split; [ | split; [ | split ]]]]]].
  - intros e st. reflexivity.
  - intros e st w He. unfold environment_invalidate. rewrite He. simpl.
    repeat split; auto. apply remove_In.
  - intros [[w|]] st He; [ discriminate | reflexivity ].
  - intros m st. reflexivity.
  - intros m st w Hm. unfold machines_invalidate. rewrite Hm. simpl.
    repeat split; auto. apply remove_In.
  - intros [[w|]] st Hm; [ discriminate | reflexivity ].
  - intros s Hx. destruct s as [[env t [ew] [mw]] st c]. simpl in *. open_step.
    destruct c, ew, mw; simpl; try congruence;
      eexists; (split; [ reflexivity | ]); simpl; auto.
  - intros s Hat. destruct s as [[env t [ew] [mw]] st c]. simpl in *. subst c.
    open_step.
    destruct ew, mw; simpl; eexists; (split; [ reflexivity | ]); simpl; auto.
Qed.

(** C2.  The statements of Stop, each from any state at all: Kill requests
    cancellation; the two invalidate calls stop the watcher that is held and
    leave the environment and the machines subscription without watcher;
    Wait is blocked while the tomb is not dead and returns its reason once
    it is.  At any time in any run of the provisioner with any calls of Stop,
    whatever their unsynchronised statements have done to the watchers:
    cancellation stays requested once a call has requested it; the tomb is
    dead exactly when loop has returned, so Wait blocks until then; there is
    no reason in the tomb, so Wait returns nil; a call that returned did so
    after loop returned and returned nil; the call can be brought to its
    return; and once some call has returned, any further call runs through
    by itself, with the same result. *)
Theorem Stop_contract :
  (forall s,
      exists s',
        Stop_statement AtKill s = Next (AtInvalidateEnvironment, s')
        /\ tomb.dying (p_tomb (prov s')) = true
        /\ at_ s' = at_ s)
  /\ (forall s,
        exists s',
          Stop_statement AtInvalidateEnvironment s = Next (AtInvalidateMachines, s')
          /\ e_watcher (p_environment (prov s')) = None
          /\ (forall w,
                e_watcher (p_environment (prov s)) = Some w ->
                ~ In w (config_watchers (world s')))
          /\ p_tomb (prov s') = p_tomb (prov s)
          /\ at_ s' = at_ s)
  /\ (forall s,
        exists s',
          Stop_statement AtInvalidateMachines s = Next (AtWait, s')
          /\ m_watcher (p_machines (prov s')) = None
          /\ (forall w,
                m_watcher (p_machines (prov s)) = Some w ->
                ~ In w (machines_watchers (world s')))
          /\ p_tomb (prov s') = p_tomb (prov s)
          /\ at_ s' = at_ s)
  /\ (forall s,
        tomb.dead (p_tomb (prov s)) = false -> Stop_statement AtWait s = Blocked)
  /\ (forall s,
        tomb.dead (p_tomb (prov s)) = true ->
        Stop_statement AtWait s = Next (Returned (tomb.reason (p_tomb (prov s))), s))
  /\ (forall os P i,
        unsynchronised os (start initial_world) = Next P ->
        (calls P i <> AtKill -> tomb.dying (p_tomb (prov (sys P))) = true)
        /\ (tomb.dead (p_tomb (prov (sys P))) = true <-> at_ (sys P) = Exited)
        /\ tomb.reason (p_tomb (prov (sys P))) = None
        /\ (calls P i = AtWait ->
            at_ (sys P) <> Exited ->
            act (StopStatement i) P = Blocked)
        /\ (calls P i = AtWait ->
            at_ (sys P) = Exited ->
            exists P',
              act (StopStatement i) P = Next P'
              /\ calls P' i = Returned None
              /\ sys P' = sys P)
        /\ (forall err,
              calls P i = Returned err -> at_ (sys P) = Exited /\ err = None)
        /\ (exists P',
              interleave (completion i P) P = Next P' /\ calls P' i = Returned None)
        /\ (forall j err,
              calls P j = Returned err ->
              calls P i = AtKill ->
              exists P',
                interleave (Stop i) P = Next P'
                /\ calls P' i = Returned err
                /\ at_ (sys P') = Exited)).
Proof.
  split; [ | split; [ | split; [ | split; [ | split ]]]].
  - intros s. eexists. split; [ reflexivity | ]. simpl. auto.
  - intros s. unfold Stop_statement, environment_invalidate.
    destruct (e_watcher (p_environment (prov s))) as [w|] eqn:Hw; simpl;
      eexists; (split; [ reflexivity | ]); simpl; repeat split; auto;
      intros w' Hw'; inversion Hw'; subst. apply remove_In.
  - intros s. unfold Stop_statement, machines_invalidate.
    destruct (m_watcher (p_machines (prov s))) as [w|] eqn:Hw; simpl;
      eexists; (split; [ reflexivity | ]); simpl; repeat split; auto;
      intros w' Hw'; inversion Hw'; subst. apply remove_In.
  - intros s Hd. unfold Stop_statement, tomb.Wait. now rewrite Hd.
  - intros s Hd. unfold Stop_statement, tomb.Wait. now rewrite Hd.
  - intros os P i Hrun.
    pose proof (unsynchronised_steady os _ P start_steady Hrun) as Hinv.
    pose proof Hinv as (Hh & [Hreason Hdead] & Hc).
    destruct (Hc i) as [Hdying Hret].
    split; [ exact Hdying | ]. split; [ exact Hdead | ]. split; [ exact Hreason | ].
    split; [ | split; [ | split; [ | split ]]].
    + intros Hpc Hx. apply act_Stop_AtWait_blocks; [ exact Hpc | ].
      destruct (tomb.dead (p_tomb (prov (sys P)))) eqn:Hd; [ | reflexivity ].
      exfalso. apply Hx. now apply Hdead.
    + intros Hpc Hx.
      destruct (act_Stop_AtWait_returns i P Hpc (proj2 Hdead Hx)) as (P' & HP & Hpc' & Hs).
      exists P'. rewrite Hreason in Hpc'. auto.
    + exact Hret.
    + now apply completion_returns_steady.
    + intros j err Hj Hi.
      destruct (Hc j) as [_ Hretj]. destruct (Hretj err Hj) as [Hx ->].
      assert (Hcomp : completion i P = Stop i).
      { unfold completion. now rewrite Hi, Hx. }
      destruct (completion_returns_steady i P Hinv) as (P' & HP' & Hpc').
      rewrite Hcomp in HP'. exists P'. repeat split; auto.
      pose proof (interleave_steady _ _ _ Hinv HP') as (_ & _ & Hc').
      destruct (Hc' i) as [_ Hreti]. now destruct (Hreti None Hpc').
Qed.

End Contracts.

(** ** The model at work on the dummy provider *)

#[local] Existing Instance dummy.collaborators.

(** C1, as the specification has it, fails: after one valid snapshot the
    Controller is in innerLoop, and a closed configuration channel does not
    take it back to the select of loop, nor does it drop the handle. *)
Lemma closed_config_channel_does_not_fall_back :
  ~ falls_back_to_Idle (C := dummy.collaborators) dummy.active.
Proof.
  intros (s' & Hs & _ & Henv & _).
  vm_compute in Hs. inversion Hs; subst s'.
  vm_compute in Henv. discriminate Henv.
Qed.

(** The scenario of the specification: a valid snapshot, the configuration
    channel closes, another valid snapshot.  NewEnviron is called once, and
    the second snapshot is applied to the handle of the first. *)
Example two_snapshots_one_construction :
  exists s,
    run (C := dummy.collaborators)
        [ Receive (EnvironmentChange (Some dummy.good));
          Receive (EnvironmentChange None);
          Receive (EnvironmentChange (Some dummy.good_extra)) ]
        (NewProvisioner initial_world) = Next s
    /\ constructions (world s) = 1
    /\ applications (world s) = 1
    /\ at_ s = AtInnerLoop
    /\ environ (prov s) = Some dummy.good_extra.
Proof. eexists. split; [ vm_compute; reflexivity | ]. repeat split. Qed.

Lemma closed_config_channel_keeps_Active_witness :
  at_ dummy.active = AtInnerLoop
  /\ environ (prov dummy.active) = Some dummy.good
  /\ exists s',
       step (C := dummy.collaborators) (Receive (EnvironmentChange None)) dummy.active
       = Next s'
       /\ e_watcher (p_environment (prov s')) = None
       /\ at_ s' = AtInnerLoop
       /\ environ (prov s') = Some dummy.good.
Proof.
  split; [ reflexivity | ]. split; [ reflexivity | ].
  destruct (closed_config_channel_keeps_Active
              (C := dummy.collaborators) dummy.active dummy.good eq_refl eq_refl)
    as (s' & Hs & Hw & Hat & Henv & _).
  exists s'. auto.
Defined.

Lemma invalid_snapshot_skipped_in_Active_witness :
  at_ dummy.active = AtInnerLoop
  /\ NewConfig (Map dummy.bad) = inr "no type in configuration"
  /\ exists s',
       step (C := dummy.collaborators)
            (Receive (EnvironmentChange (Some dummy.bad))) dummy.active = Next s'
       /\ applications (world s') = applications (world dummy.active)
       /\ at_ s' = AtInnerLoop
       /\ environ (prov s') = environ (prov dummy.active).
Proof.
  split; [ reflexivity | ]. split; [ reflexivity | ].
  destruct (invalid_snapshot_skipped_in_Active
              (C := dummy.collaborators) dummy.active dummy.bad
              "no type in configuration" eq_refl eq_refl)
    as (s' & Hs & _ & Happ & Hat & Henv & _).
  exists s'. auto.
Defined.

Lemma failed_construction_stays_Idle_witness :
  at_ (NewProvisioner (C := dummy.collaborators) initial_world) = AtLoop
  /\ NewEnviron (Map dummy.bad) = inr "no type in configuration"
  /\ exists s',
       step (C := dummy.collaborators)
            (Receive (EnvironmentChange (Some dummy.bad)))
            (NewProvisioner initial_world) = Next s'
       /\ at_ s' = AtLoop.
Proof.
  split; [ reflexivity | ]. split; [ reflexivity | ].
  destruct (failed_construction_stays_Idle
              (C := dummy.collaborators) (NewProvisioner initial_world) eq_refl)
    as [Hone _].
  destruct (Hone dummy.bad "no type in configuration" eq_refl)
    as (s' & Hs & _ & Hat & _).
  exists s'. auto.
Defined.

Lemma closed_machines_channel_keeps_Active_witness :
  at_ dummy.active = AtInnerLoop
  /\ exists s',
       step (C := dummy.collaborators) (Receive (MachinesChanged None)) dummy.active
       = Next s'
       /\ m_watcher (p_machines (prov s')) = None
       /\ at_ s' = AtInnerLoop
       /\ environ (prov s') = environ (prov dummy.active).
Proof.
  split; [ reflexivity | ].
  destruct (closed_machines_channel_keeps_Active
              (C := dummy.collaborators) dummy.active eq_refl)
    as (s' & Hs & Hm & Hat & Henv & _).
  exists s'. auto.
Defined.

Lemma one_handle_exactly_in_Active_witness :
  run (C := dummy.collaborators) (map Receive dummy.deliveries)
      (NewProvisioner initial_world) = Next dummy.delivered
  /\ activations (map Receive dummy.deliveries) (NewProvisioner initial_world)
     + successful_constructions initial_world
     = successful_constructions (world dummy.delivered)
  /\ handles_held dummy.delivered <= 1
  /\ (environ (prov dummy.delivered) <> None <-> at_ dummy.delivered = AtInnerLoop).
Proof.
  assert (Hrun : run (C := dummy.collaborators) (map Receive dummy.deliveries)
                     (NewProvisioner initial_world) = Next dummy.delivered)
    by (vm_compute; reflexivity).
  split; [ exact Hrun | ].
  exact (proj2 (one_handle_exactly_in_Active (C := dummy.collaborators) initial_world)
               dummy.deliveries dummy.delivered Hrun).
Defined.


Lemma invalidate_releases_and_resets_witness :
  e_watcher (p_environment (prov dummy.active)) = Some 0
  /\ ~ In 0 (config_watchers
               (snd (environment_invalidate (C := dummy.collaborators)
                       (p_environment (prov dummy.active)) (world dummy.active)))).
Proof.
  split; [ reflexivity | ].
  exact (proj1 (proj1 (proj2 (invalidate_releases_and_resets (C := dummy.collaborators)))
                      (p_environment (prov dummy.active)) (world dummy.active) 0 eq_refl)).
Defined.

Lemma Stop_contract_witness :
  unsynchronised (C := dummy.collaborators) scenario.raced_run (start initial_world)
  = Next scenario.raced
  /\ calls scenario.raced 0 = Returned None
  /\ calls scenario.raced 1 = AtKill
  /\ at_ (sys scenario.raced) = Exited
  /\ exists P',
       interleave (Stop 1) scenario.raced = Next P'
       /\ calls P' 1 = Returned None
       /\ at_ (sys P') = Exited.
Proof.
  assert (Hrun : unsynchronised (C := dummy.collaborators) scenario.raced_run
                                (start initial_world) = Next scenario.raced)
    by (vm_compute; reflexivity).
  split; [ exact Hrun | ]. split; [ reflexivity | ]. split; [ reflexivity | ].
  destruct (proj2 (proj2 (proj2 (proj2 (proj2 (Stop_contract (C := dummy.collaborators))))))
                  scenario.raced_run scenario.raced 1 Hrun)
    as (_ & _ & _ & _ & _ & _ & _ & Hsecond).
  destruct (proj2 (proj2 (proj2 (proj2 (proj2 (Stop_contract (C := dummy.collaborators))))))
                  scenario.raced_run scenario.raced 0 Hrun)
    as (_ & _ & _ & _ & _ & Hreturned & _).
  split; [ exact (proj1 (Hreturned None eq_refl)) | ].
  exact (Hsecond 0 None eq_refl eq_refl).
Defined.

(** C9, where the code departs from it.  Stop is called while the Controller
    is in innerLoop and a snapshot is pending.  The goroutine takes the
    Dying case in innerLoop; that returns to loop and not from it.  There the
    select takes the pending snapshot: environs.NewEnviron is called once
    more and the Controller is in innerLoop again, its tomb not dead. *)
Theorem snapshot_serviced_after_cancellation :
  exists P P',
    interleave (C := dummy.collaborators) dummy.cancelled_while_Active
               (start initial_world) = Next P
    /\ tomb.dying (p_tomb (prov (sys P))) = true
    /\ at_ (sys P) = AtLoop
    /\ act dummy.pending_snapshot P = Next P'
    /\ at_ (sys P') = AtInnerLoop
    /\ constructions (world (sys P')) = S (constructions (world (sys P)))
    /\ tomb.dead (p_tomb (prov (sys P'))) = false.
Proof.
  eexists. eexists.
  split; [ vm_compute; reflexivity | ].
  split; [ reflexivity | ]. split; [ reflexivity | ].
  split; [ vm_compute; reflexivity | ].
  repeat split.
Qed.

(** ** More on errors.go *)

Section MoreOnErrors.

Import Errors.
Import state.

(** The three predicates answer for different dynamic types: whatever
    errors.Cause returns, at most one of them returns true, and they panic
    together. *)
Theorem error_predicates_exclusive (errors_Cause : iface -> iface) (err : iface) :
  (IsCharmAlreadyUploadedError errors_Cause err = Returns true ->
   IsProviderIDNotUniqueError errors_Cause err = Returns false
   /\ IsParentDeviceHasChildrenError errors_Cause err = Returns false)
  /\ (IsProviderIDNotUniqueError errors_Cause err = Returns true ->
      IsCharmAlreadyUploadedError errors_Cause err = Returns false
      /\ IsParentDeviceHasChildrenError errors_Cause err = Returns false)
  /\ (IsParentDeviceHasChildrenError errors_Cause err = Returns true ->
      IsCharmAlreadyUploadedError errors_Cause err = Returns false
      /\ IsProviderIDNotUniqueError errors_Cause err = Returns false)
  /\ (IsCharmAlreadyUploadedError errors_Cause err = Panics <->
      IsProviderIDNotUniqueError errors_Cause err = Panics)
  /\ (IsProviderIDNotUniqueError errors_Cause err = Panics <->
      IsParentDeviceHasChildrenError errors_Cause err = Panics).
Proof.
  unfold IsCharmAlreadyUploadedError, IsProviderIDNotUniqueError,
    IsParentDeviceHasChildrenError, assert_error.
  destruct err as [v|]; [ | repeat split; intros; discriminate ].
  destruct (implements_error v); [ | repeat split; intros; try discriminate; auto ].
  destruct (errors_Cause (Some v)) as [c|]; [ destruct c | destruct v ]; simpl;
    repeat split; intros; try discriminate; auto.
Qed.

Lemma error_predicates_exclusive_witness :
  IsProviderIDNotUniqueError Cause (NewProviderIDNotUniqueError ["eni-1"]) = Returns true
  /\ IsCharmAlreadyUploadedError Cause (NewProviderIDNotUniqueError ["eni-1"])
     = Returns false
  /\ IsParentDeviceHasChildrenError Cause (NewProviderIDNotUniqueError ["eni-1"])
     = Returns false.
Proof.
  split; [ reflexivity | ].
  exact (proj1 (proj2 (error_predicates_exclusive
                         Cause (NewProviderIDNotUniqueError ["eni-1"])))
               eq_refl).
Defined.

Lemma Cause_Trace (e : iface) : Cause (Trace e) = Cause e.
Proof.
  destruct e as [v|]; [ | reflexivity ].
  destruct v as [ | | |message [c|] previous| | | ]; reflexivity.
Qed.

Lemma is_error_Trace (e : iface) : is_error (Trace e) = true.
Proof. now destruct e. Qed.

Lemma Cause_not_nil (v : value) : Cause (Some v) <> None.
Proof. destruct v as [ | | |message [c|] previous| | | ]; discriminate. Qed.

(** On a value of type error, a predicate is the comma-ok assertion on the
    cause. *)
Lemma predicate_on_error (is_T : value -> bool) (Is : iface -> result bool) :
  classifies Cause Is is_T ->
  forall e, is_error e = true -> Is e = Returns (comma_ok is_T (Cause e)).
Proof.
  intros (Hnil & Hcause & _ & _) [v|] He; simpl in He.
  - destruct (Cause (Some v)) as [c|] eqn:Hc.
    + now apply Hcause.
    + now destruct (Cause_not_nil v).
  - exact Hnil.
Qed.

Lemma predicate_Trace (is_T : value -> bool) (Is : iface -> result bool) :
  classifies Cause Is is_T ->
  forall e, is_error e = true -> Is (Trace e) = Is e.
Proof.
  intros Hcl e He.
  rewrite (predicate_on_error is_T Is Hcl (Trace e) (is_error_Trace e)).
  rewrite (predicate_on_error is_T Is Hcl e He).
  now rewrite Cause_Trace.
Qed.

Lemma predicate_iter_Trace (is_T : value -> bool) (Is : iface -> result bool) :
  classifies Cause Is is_T ->
  forall n e, is_error e = true -> Is (Nat.iter n Trace e) = Is e.
Proof.
  intros Hcl n e He. induction n as [|n IH]; [ reflexivity | ].
  simpl. rewrite (predicate_Trace is_T Is Hcl).
  - exact IH.
  - destruct n; [ exact He | apply is_error_Trace ].
Qed.

Lemma charm_classifies :
  classifies Cause (IsCharmAlreadyUploadedError Cause) is_ErrCharmAlreadyUploaded.
Proof. apply classify_shape. intros [v|]; reflexivity. Qed.

Lemma provider_classifies :
  classifies Cause (IsProviderIDNotUniqueError Cause) is_ErrProviderIDNotUnique.
Proof. apply classify_shape. intros [v|]; reflexivity. Qed.

Lemma parent_classifies :
  classifies Cause (IsParentDeviceHasChildrenError Cause) is_ErrParentDeviceHasChildren.
Proof. apply classify_shape. intros [v|]; reflexivity. Qed.

(** With errors.Cause and errors.Trace as github.com/juju/errors has them:
    tracing an error any number of times changes the answer of none of the
    three predicates. *)
Theorem classification_survives_Trace (n : nat) (e : iface) :
  is_error e = true ->
  IsCharmAlreadyUploadedError Cause (Nat.iter n Trace e)
  = IsCharmAlreadyUploadedError Cause e
  /\ IsProviderIDNotUniqueError Cause (Nat.iter n Trace e)
     = IsProviderIDNotUniqueError Cause e
  /\ IsParentDeviceHasChildrenError Cause (Nat.iter n Trace e)
     = IsParentDeviceHasChildrenError Cause e.
Proof.
  intros He. split; [ | split ].
  - exact (predicate_iter_Trace _ _ charm_classifies n e He).
  - exact (predicate_iter_Trace _ _ provider_classifies n e He).
  - exact (predicate_iter_Trace _ _ parent_classifies n e He).
Qed.

Lemma classification_survives_Trace_witness :
  is_error (Some (PtrErrCharmAlreadyUploaded {| curl := Some "cs:wordpress-3" |})) = true
  /\ IsCharmAlreadyUploadedError Cause
       (Nat.iter 3 Trace
          (Some (PtrErrCharmAlreadyUploaded {| curl := Some "cs:wordpress-3" |})))
     = IsCharmAlreadyUploadedError Cause
         (Some (PtrErrCharmAlreadyUploaded {| curl := Some "cs:wordpress-3" |})).
Proof.
  split; [ reflexivity | ].
  exact (proj1 (classification_survives_Trace 3
                  (Some (PtrErrCharmAlreadyUploaded {| curl := Some "cs:wordpress-3" |}))
                  eq_refl)).
Defined.

(** The error built by NewProviderIDNotUniqueError carries the given ids
    unchanged, and however often it is traced it is recognised by
    IsProviderIDNotUniqueError and by neither of the other two predicates;
    likewise the error of newParentDeviceHasChildrenError and
    IsParentDeviceHasChildrenError. *)
Theorem constructors_are_recognised
    (providerIDs : list string) (parentName : string) (numChildren : Z) (n : nat) :
  NewProviderIDNotUniqueError providerIDs
  = Some (PtrErrProviderIDNotUnique {| duplicateIDs := providerIDs |})
  /\ IsProviderIDNotUniqueError Cause
       (Nat.iter n Trace (NewProviderIDNotUniqueError providerIDs)) = Returns true
  /\ IsCharmAlreadyUploadedError Cause
       (Nat.iter n Trace (NewProviderIDNotUniqueError providerIDs)) = Returns false
  /\ IsParentDeviceHasChildrenError Cause
       (Nat.iter n Trace (NewProviderIDNotUniqueError providerIDs)) = Returns false
  /\ IsParentDeviceHasChildrenError Cause
       (Nat.iter n Trace (newParentDeviceHasChildrenError parentName numChildren))
     = Returns true
  /\ IsCharmAlreadyUploadedError Cause
       (Nat.iter n Trace (newParentDeviceHasChildrenError parentName numChildren))
     = Returns false
  /\ IsProviderIDNotUniqueError Cause
       (Nat.iter n Trace (newParentDeviceHasChildrenError parentName numChildren))
     = Returns false.
Proof.
  assert (Hids : NewProviderIDNotUniqueError providerIDs
                 = Some (PtrErrProviderIDNotUnique {| duplicateIDs := providerIDs |})).
  { unfold NewProviderIDNotUniqueError, newProviderIDNotUniqueErrorFromStrings.
    now rewrite map_id. }
  split; [ exact Hids | ].
  rewrite Hids. unfold newParentDeviceHasChildrenError.
  rewrite (predicate_iter_Trace _ _ provider_classifies n) by reflexivity.
  rewrite (predicate_iter_Trace _ _ charm_classifies n) by reflexivity.
  rewrite (predicate_iter_Trace _ _ parent_classifies n) by reflexivity.
  rewrite (predicate_iter_Trace _ _ provider_classifies n) by reflexivity.
  rewrite (predicate_iter_Trace _ _ charm_classifies n) by reflexivity.
  rewrite (predicate_iter_Trace _ _ parent_classifies n) by reflexivity.
  repeat split.
Qed.

End MoreOnErrors.

Section OnAbortAndMessages.

Import Errors.
Import state.

Variable is_ErrAborted : value -> bool.

Lemma Trace_nil (e : iface) : Trace e = None <-> e = None.
Proof. destruct e; simpl; split; intros H; congruence. Qed.

(** onAbort returns nil in two cases only: the transaction error is nil, or
    the transaction was aborted and the error to report in its place is nil. *)
Theorem onAbort_nil (txnErr err : iface) :
  onAbort is_ErrAborted txnErr err = None
  <-> txnErr = None \/ (aborted is_ErrAborted txnErr = true /\ err = None).
Proof.
  unfold onAbort, aborted.
  destruct txnErr as [v|].
  - destruct (equals_ErrAborted is_ErrAborted (Some v)
              || equals_ErrAborted is_ErrAborted (Cause (Some v))) eqn:Ha.
    + rewrite Trace_nil. split.
      * intros ->. right. split; reflexivity.
      * intros [H|[_ H]]; [ discriminate | exact H ].
    + rewrite Trace_nil. split.
      * discriminate.
      * intros [H|[H _]]; discriminate.
  - simpl. split; auto.
Qed.

(** What onAbort returns is classified like the error it chose: like err
    when the transaction error is or wraps txn.ErrAborted, like the
    transaction error otherwise. *)
Theorem onAbort_classification (txnErr err : iface) :
  is_error txnErr = true ->
  is_error err = true ->
  let chosen := if aborted is_ErrAborted txnErr then err else txnErr in
  IsCharmAlreadyUploadedError Cause (onAbort is_ErrAborted txnErr err)
  = IsCharmAlreadyUploadedError Cause chosen
  /\ IsProviderIDNotUniqueError Cause (onAbort is_ErrAborted txnErr err)
     = IsProviderIDNotUniqueError Cause chosen
  /\ IsParentDeviceHasChildrenError Cause (onAbort is_ErrAborted txnErr err)
     = IsParentDeviceHasChildrenError Cause chosen
  /\ Cause (onAbort is_ErrAborted txnErr err) = Cause chosen.
Proof.
  intros Ht He. unfold onAbort, aborted. simpl.
  destruct (equals_ErrAborted is_ErrAborted txnErr
            || equals_ErrAborted is_ErrAborted (Cause txnErr)).
  - rewrite (predicate_Trace _ _ charm_classifies err He).
    rewrite (predicate_Trace _ _ provider_classifies err He).
    rewrite (predicate_Trace _ _ parent_classifies err He).
    rewrite Cause_Trace. repeat split.
  - rewrite (predicate_Trace _ _ charm_classifies txnErr Ht).
    rewrite (predicate_Trace _ _ provider_classifies txnErr Ht).
    rewrite (predicate_Trace _ _ parent_classifies txnErr Ht).
    rewrite Cause_Trace. repeat split.
Qed.

End OnAbortAndMessages.

Section Messages.

Import Errors.
Import state.

Lemma string_append_assoc (a b c : string) :
  ((a ++ b) ++ c = a ++ (b ++ c))%string.
Proof. induction a as [|x a IH]; simpl; [ reflexivity | now rewrite IH ]. Qed.

Lemma Join_cons (a b : string) (rest : list string) (sep : string) :
  Join (a :: b :: rest) sep = (a ++ sep ++ Join (b :: rest) sep)%string.
Proof. reflexivity. Qed.

Lemma Join_mentions (sep id : string) (elems : list string) :
  In id elems ->
  exists before after, Join elems sep = (before ++ id ++ after)%string.
Proof.
  induction elems as [|a rest IH]; intros Hin; [ contradiction | ].
  destruct Hin as [->|Hin].
  - destruct rest as [|b rest].
    + exists ""%string, ""%string. simpl.
      clear. induction id as [|x id IH]; simpl; [ reflexivity | now rewrite <- IH ].
    + exists ""%string, (sep ++ Join (b :: rest) sep)%string. reflexivity.
  - destruct rest as [|b rest]; [ contradiction | ].
    destruct (IH Hin) as (before & after & Hj).
    exists (a ++ sep ++ before)%string, after.
    rewrite Join_cons, Hj.
    now rewrite !string_append_assoc.
Qed.

(** The message of an ErrProviderIDNotUnique starts with the fixed text and
    names every duplicate id; without ids it is the fixed text alone, and an
    id more at the front is put before the others, followed by a comma and a
    space. *)
Theorem ErrProviderIDNotUnique_Error_mentions (ids : list string) :
  (forall id,
      In id ids ->
      exists before after,
        ErrProviderIDNotUnique_Error {| duplicateIDs := ids |}
        = ("ProviderID(s) not unique: " ++ before ++ id ++ after)%string)
  /\ (ids = [] ->
      ErrProviderIDNotUnique_Error {| duplicateIDs := ids |}
      = "ProviderID(s) not unique: "%string)
  /\ (forall id,
        ids <> [] ->
        ErrProviderIDNotUnique_Error {| duplicateIDs := id :: ids |}
        = ("ProviderID(s) not unique: " ++ id ++ ", " ++ Join ids ", ")%string).
Proof.
  unfold ErrProviderIDNotUnique_Error. cbn [duplicateIDs]. split; [ | split ].
  - intros id Hin. destruct (Join_mentions ", " id ids Hin) as (before & after & Hj).
    exists before, after. now rewrite Hj.
  - intros ->. reflexivity.
  - intros id Hne. destruct ids as [|b rest]; [ contradiction | reflexivity ].
Qed.

Lemma ErrProviderIDNotUnique_Error_mentions_witness :
  In "eni-2" ["eni-1"; "eni-2"; "eni-3"]
  /\ exists before after,
       ErrProviderIDNotUnique_Error {| duplicateIDs := ["eni-1"; "eni-2"; "eni-3"] |}
       = ("ProviderID(s) not unique: " ++ before ++ "eni-2" ++ after)%string.
Proof.
  assert (Hin : In "eni-2"%string ["eni-1"; "eni-2"; "eni-3"]%string)
    by (simpl; auto).
  split; [ exact Hin | ].
  exact (proj1 (ErrProviderIDNotUnique_Error_mentions ["eni-1"; "eni-2"; "eni-3"])
               "eni-2"%string Hin).
Defined.

Lemma onAbort_nil_witness :
  onAbort aborted_text (Some (ErrorString "transaction aborted")) None = None.
Proof.
  apply (proj2 (onAbort_nil aborted_text (Some (ErrorString "transaction aborted")) None)).
  right. split; reflexivity.
Defined.

Lemma onAbort_classification_witness :
  is_error (Trace (Some (ErrorString "transaction aborted"))) = true
  /\ is_error (NewProviderIDNotUniqueError ["eni-1"]) = true
  /\ IsProviderIDNotUniqueError Cause
       (onAbort aborted_text (Trace (Some (ErrorString "transaction aborted")))
                (NewProviderIDNotUniqueError ["eni-1"]))
     = Returns true.
Proof.
  split; [ reflexivity | ]. split; [ reflexivity | ].
  exact (proj1 (proj2 (onAbort_classification aborted_text
                         (Trace (Some (ErrorString "transaction aborted")))
                         (NewProviderIDNotUniqueError ["eni-1"]) eq_refl eq_refl))).
Defined.

End Messages.

(** ** More on the provisioning agent *)

Section MoreOnTheAgent.

Context {C : Collaborators}.

Lemma step_tomb_untouched (ev : event) (s : System) :
  p_tomb (prov s) = tomb.zero ->
  match step ev s with
  | Next s' => p_tomb (prov s') = tomb.zero /\ at_ s' <> Exited /\ ev <> Dying
  | Blocked => True
  | Panic => True
  end.
Proof.
  destruct s as [[env t [ew] [mw]] st c]. simpl. intros ->. open_step.
  destruct c, ev as [|[[cfg|]|[mc|]]], ew, mw; simpl; branch;
    auto; repeat split; discriminate.
Qed.

Lemma run_tomb_untouched (evs : list event) :
  forall s s',
    p_tomb (prov s) = tomb.zero -> at_ s <> Exited ->
    run evs s = Next s' ->
    p_tomb (prov s') = tomb.zero /\ at_ s' <> Exited /\ ~ In Dying evs.
Proof.
  induction evs as [|ev evs IH]; intros s s' Ht Hx H; simpl in H.
  - inversion H; subst. auto.
  - pose proof (step_tomb_untouched ev s Ht) as Hs.
    destruct (step ev s) as [s1| |]; try discriminate.
    destruct Hs as (Ht1 & Hx1 & Hev).
    destruct (IH s1 s' Ht1 Hx1 H) as (Ht' & Hx' & Hin).
    repeat split; auto. intros [Heq|Hin']; [ now apply Hev | now apply Hin ].
Qed.

Lemma run_handle (evs : list event) :
  forall s, handle_ok s -> run evs s <> Panic.
Proof.
  induction evs as [|ev evs IH]; intros s Hh; simpl; [ discriminate | ].
  destruct (step ev s) as [s1| |] eqn:Hs.
  - apply IH. eapply step_handle; eauto.
  - discriminate.
  - now apply step_no_panic in Hs.
Qed.

(** ProvisioningAgent.Run returns the error of state.Open as it is.  Once the
    state is open it does not return: the Provisioner is local to Run, so
    nothing calls Stop, no select can take the Dying case, loop does not
    return, and Wait stays blocked whatever is delivered. *)
Theorem Run_waits_forever :
  (forall err evs, Run (inr err) evs = Next (RunReturned (Some err)))
  /\ (forall st evs, Run (inl st) evs <> Panic)
  /\ (forall st evs r,
        Run (inl st) evs = Next r ->
        exists s,
          r = RunWaiting s
          /\ run evs (NewProvisioner st) = Next s
          /\ at_ s <> Exited
          /\ ~ In Dying evs).
Proof.
  split; [ reflexivity | ]. split.
  - intros st evs. unfold Run.
    pose proof (run_handle evs (NewProvisioner st)) as Hp.
    destruct (run evs (NewProvisioner st)); try discriminate.
    exfalso. apply Hp; [ | reflexivity ]. unfold handle_ok. simpl. discriminate.
  - intros st evs r. unfold Run.
    destruct (run evs (NewProvisioner st)) as [s| |] eqn:Hrun; try discriminate.
    intros H. inversion H; subst r.
    assert (Hstart : at_ (NewProvisioner st) <> Exited) by (simpl; discriminate).
    destruct (run_tomb_untouched evs (NewProvisioner st) s eq_refl Hstart Hrun)
      as (Ht & Hx & Hin).
    exists s. unfold Run_Wait. rewrite Ht. simpl. auto.
Qed.

Lemma idle_snapshot (s : System) (config : ConfigNode) :
  at_ s = AtLoop ->
  exists s',
    step (snapshot config) s = Next s'
    /\ constructions (world s') = S (constructions (world s))
    /\ match NewEnviron (Map config) with
       | inl env => at_ s' = AtInnerLoop /\ environ (prov s') = Some env
       | inr _ => at_ s' = AtLoop /\ environ (prov s') = None
       end.
Proof.
  destruct s as [[env t [ew] [mw]] st c]. simpl. intros ->.
  unfold snapshot, constructions. open_step.
  destruct (NewEnviron (Map config)), ew; simpl;
    eexists; (split; [ reflexivity | ]); simpl; auto.
Qed.

Lemma active_snapshot (s : System) (env : Environ) (change : ConfigNode) :
  at_ s = AtInnerLoop ->
  environ (prov s) = Some env ->
  exists s',
    step (snapshot change) s = Next s'
    /\ constructions (world s') = constructions (world s)
    /\ at_ s' = AtInnerLoop
    /\ environ (prov s') = Some (updated env change).
Proof.
  destruct s as [[e t [ew] [mw]] st c]. simpl. intros -> ->.
  unfold snapshot, constructions, updated. open_step.
  destruct (NewConfig (Map change)), ew, mw; simpl;
    eexists; (split; [ reflexivity | ]); simpl; auto.
Qed.

Lemma active_snapshots (changes : list ConfigNode) :
  forall s env,
    at_ s = AtInnerLoop ->
    environ (prov s) = Some env ->
    exists s',
      run (map snapshot changes) s = Next s'
      /\ constructions (world s') = constructions (world s)
      /\ at_ s' = AtInnerLoop
      /\ environ (prov s') = Some (fold_left updated changes env).
Proof.
  induction changes as [|change changes IH]; intros s env Hat Henv.
  - exists s. simpl. auto.
  - destruct (active_snapshot s env change Hat Henv) as (s1 & Hs1 & Hn1 & Hat1 & Henv1).
    destruct (IH s1 _ Hat1 Henv1) as (s' & Hrun & Hn & Hat' & Henv').
    exists s'. cbn [map run fold_left]. rewrite Hs1.
    repeat split; auto. congruence.
Qed.

Lemma idle_snapshots (snapshots : list ConfigNode) :
  forall s,
    at_ s = AtLoop ->
    exists s',
      run (map snapshot snapshots) s = Next s'
      /\ (snapshots <> [] -> environ (prov s') = handle_after snapshots)
      /\ constructions (world s') = constructions (world s) + constructed_from snapshots
      /\ (at_ s' = AtInnerLoop <-> handle_after snapshots <> None)
      /\ at_ s' <> Exited.
Proof.
  induction snapshots as [|config rest IH]; intros s Hat.
  - exists s. simpl. repeat split; try congruence; try lia.
  - destruct (idle_snapshot s config Hat) as (s1 & Hs1 & Hn1 & Hres).
    cbn [map run handle_after constructed_from]. rewrite Hs1.
    destruct (NewEnviron (Map config)) as [env|err].
    + destruct Hres as [Hat1 Henv1].
      destruct (active_snapshots rest s1 env Hat1 Henv1) as (s' & Hrun & Hn & Hat' & Henv').
      exists s'. repeat split; auto; try lia; try congruence.
    + destruct Hres as [Hat1 Henv1].
      destruct (IH s1 Hat1) as (s' & Hrun & Henv' & Hn & Hiff & Hx).
      exists s'. repeat split; auto; try lia; try (now apply Hiff).
      intros _. destruct rest as [|c rest]; [ | apply Henv'; discriminate ].
      simpl in Hrun. inversion Hrun; subst s'. exact Henv1.
Qed.

(** Whatever snapshots a new provisioner receives: its handle is built from
    the first one environs.NewEnviron accepts and then updated, in order, by
    each later one that environs.NewConfig accepts; NewEnviron is called for
    each snapshot up to and including the first accepted one and not again;
    the Controller is in innerLoop exactly when there is a handle. *)
Theorem handle_follows_snapshots (st : World) (snapshots : list ConfigNode) :
  exists s,
    run (map snapshot snapshots) (NewProvisioner st) = Next s
    /\ environ (prov s) = handle_after snapshots
    /\ constructions (world s) = constructions st + constructed_from snapshots
    /\ (at_ s = AtInnerLoop <-> handle_after snapshots <> None).
Proof.
  destruct (idle_snapshots snapshots (NewProvisioner st) eq_refl)
    as (s & Hrun & Henv & Hn & Hiff & _).
  exists s. repeat split; auto; try (now apply Hiff).
  destruct snapshots as [|c rest]; [ | apply Henv; discriminate ].
  simpl in Hrun. inversion Hrun. reflexivity.
Qed.

End MoreOnTheAgent.

Section MoreOnTheLoops.

Context {C : Collaborators}.

Lemma machines_change_step (s : System) (change : MachinesChange) :
  at_ s = AtInnerLoop ->
  exists s',
    step (machines_change change) s = Next s'
    /\ at_ s' = AtInnerLoop
    /\ environ (prov s') = environ (prov s)
    /\ p_tomb (prov s') = p_tomb (prov s)
    /\ trace (world s') = trace (world s)
    /\ e_watcher (p_environment (prov s')) <> None
    /\ m_watcher (p_machines (prov s')) <> None.
Proof.
  destruct s as [[env t [ew] [mw]] st c]. simpl. intros ->.
  unfold machines_change. open_step.
  destruct ew, mw; simpl; eexists; (split; [ reflexivity | ]); simpl;
    repeat split; discriminate.
Qed.

(** processMachines is empty.  In innerLoop any number of machines changes
    is received and leaves the handle, the tomb and the trace as they were,
    with both subscriptions established; at the select of loop a machines
    change is not received at all. *)
Theorem machines_changes_change_nothing (s : System) :
  (at_ s = AtLoop -> forall change, step (machines_change change) s = Blocked)
  /\ (at_ s = AtInnerLoop ->
      forall changes,
      exists s',
        run (map machines_change changes) s = Next s'
        /\ at_ s' = AtInnerLoop
        /\ environ (prov s') = environ (prov s)
        /\ p_tomb (prov s') = p_tomb (prov s)
        /\ trace (world s') = trace (world s)
        /\ (changes <> [] ->
            e_watcher (p_environment (prov s')) <> None
            /\ m_watcher (p_machines (prov s')) <> None)).
Proof.
  split.
  - intros Hat change. unfold step, machines_change. rewrite Hat.
    unfold loop_iteration.
    now destruct (environment_changes _ _) as [[ch e] st].
  - intros Hat changes. revert s Hat.
    induction changes as [|change changes IH]; intros s Hat.
    + exists s. simpl. repeat split; auto; congruence.
    + destruct (machines_change_step s change Hat)
        as (s1 & Hs1 & Hat1 & Henv1 & Ht1 & Htr1 & He1 & Hm1).
      destruct (IH s1 Hat1) as (s' & Hrun & Hat' & Henv' & Ht' & Htr' & Hw').
      exists s'. cbn [map run]. rewrite Hs1.
      repeat split; try congruence;
        (destruct changes as [|c changes];
         [ simpl in Hrun; inversion Hrun; subst s'; assumption
         | apply Hw'; discriminate ]).
Qed.

(** At the select of loop a closed configuration channel is answered by
    invalidate alone: the watcher is stopped and what its Stop returned is
    logged, no watcher is left, and handle, tomb, machines subscription and
    control stay as they were.  The next select subscribes again: a snapshot
    received then comes with a new watcher, the only live one. *)
Theorem closed_config_channel_in_Idle_resubscribes (s : System) :
  at_ s = AtLoop ->
  watchers_ok s ->
  exists s',
    step (Receive (EnvironmentChange None)) s = Next s'
    /\ at_ s' = AtLoop
    /\ e_watcher (p_environment (prov s')) = None
    /\ config_watchers (world s') = []
    /\ (exists w,
          trace (world s')
          = Printf "provisioner: environment watcher exited: %v" [WatcherStop w]
            :: trace (world s))
    /\ environ (prov s') = environ (prov s)
    /\ p_tomb (prov s') = p_tomb (prov s)
    /\ p_machines (prov s') = p_machines (prov s)
    /\ machines_watchers (world s') = machines_watchers (world s)
    /\ forall config,
       exists s'',
         step (snapshot config) s' = Next s''
         /\ e_watcher (p_environment (prov s'')) = Some (next_watcher (world s'))
         /\ config_watchers (world s'') = [next_watcher (world s')].
Proof.
  unfold watchers_ok.
  destruct s as [[env t [ew] [mw]] [nw cws mws tr] c]. simpl.
  intros -> [Hc Hm]. subst cws mws. unfold snapshot. open_step.
  destruct ew as [w|]; simpl.
  - destruct (Nat.eq_dec w w) as [_|Hne]; [ | congruence ].
    eexists; (split; [ reflexivity | ]); simpl.
    repeat split; eauto.
    intros config. destruct (NewEnviron (Map config));
      eexists; (split; [ reflexivity | ]); simpl; auto.
  - destruct (Nat.eq_dec nw nw) as [_|Hne]; [ | congruence ].
    eexists; (split; [ reflexivity | ]); simpl.
    repeat split; eauto.
    intros config. destruct (NewEnviron (Map config));
      eexists; (split; [ reflexivity | ]); simpl; auto.
Qed.

(** Both selects have the Dying case and it can be taken exactly when the
    tomb has been killed.  Taken at the select of loop, loop returns: the
    tomb is dead and Wait returns its reason.  Taken in innerLoop, innerLoop
    returns to loop, with tomb, handle and trace as they were. *)
Theorem Dying_case_in_both_loops (s : System) :
  at_ s <> Exited ->
  (tomb.dying (p_tomb (prov s)) = false -> step Dying s = Blocked)
  /\ (tomb.dying (p_tomb (prov s)) = true ->
      at_ s = AtLoop ->
      exists s',
        step Dying s = Next s'
        /\ at_ s' = Exited
        /\ tomb.dead (p_tomb (prov s')) = true
        /\ tomb.Wait (p_tomb (prov s')) = Some (tomb.reason (p_tomb (prov s)))
        /\ environ (prov s') = environ (prov s)
        /\ trace (world s') = trace (world s))
  /\ (tomb.dying (p_tomb (prov s)) = true ->
      at_ s = AtInnerLoop ->
      exists s',
        step Dying s = Next s'
        /\ at_ s' = AtLoop
        /\ p_tomb (prov s') = p_tomb (prov s)
        /\ environ (prov s') = environ (prov s)
        /\ trace (world s') = trace (world s)).
Proof.
  destruct s as [[env [dg dd rs] [ew] [mw]] st c]. simpl. intros Hx.
  split; [ | split ].
  - intros ->. open_step. destruct c, ew, mw; try reflexivity; congruence.
  - intros -> ->. open_step.
    destruct ew, rs; simpl; eexists; (split; [ reflexivity | ]); simpl; auto.
  - intros -> ->. open_step.
    destruct ew, mw; simpl; eexists; (split; [ reflexivity | ]); simpl; auto.
Qed.

End MoreOnTheLoops.

Section MoreOnWholeRuns.

Context {C : Collaborators}.

Lemma step_before_first_construction (ev : event) (s : System) :
  before_first_construction s ->
  match step ev s with
  | Next s' => before_first_construction s'
  | Blocked => True
  | Panic => True
  end.
Proof.
  unfold before_first_construction, never_active, successful_constructions, applications.
  destruct s as [[env t [ew] [mw]] [nw cws mws tr] c]. simpl. intros H. open_step.
  destruct c, ev as [|[[cfg|]|[mc|]]], ew, mw; simpl; branch; auto;
    try discriminate; try congruence;
    intros H0; destruct (H H0) as (Hat & Henv & Happ & Hmw & Hmws);
    try congruence; repeat split; auto; discriminate.
Qed.

Lemma Stop_statement_before_first_construction (pc : stop_pc) (s : System) :
  before_first_construction s ->
  match Stop_statement pc s with
  | Next (_, s') => before_first_construction s'
  | Blocked => True
  | Panic => True
  end.
Proof.
  unfold before_first_construction, never_active, successful_constructions, applications.
  destruct s as [[env t [ew] [mw]] [nw cws mws tr] c]. simpl. intros H. open_step.
  destruct pc, ew, mw; simpl; branch; auto;
    intros H0; destruct (H H0) as (Hat & Henv & Happ & Hmw & Hmws);
    try congruence; repeat split; auto.
Qed.

Lemma interleave_before_first_construction (acts : list action) :
  forall P P',
    before_first_construction (sys P) ->
    interleave acts P = Next P' ->
    before_first_construction (sys P').
Proof.
  induction acts as [|a acts IH]; intros P P' Hb H; simpl in H.
  - now inversion H; subst.
  - destruct (act a P) as [P1| |] eqn:Ha; try discriminate.
    apply (IH P1 P'); [ | exact H ].
    destruct a as [ev|i]; simpl in Ha.
    + pose proof (step_before_first_construction ev (sys P) Hb) as Hs.
      destruct (step ev (sys P)); try discriminate. now inversion Ha; subst.
    + pose proof (Stop_statement_before_first_construction (calls P i) (sys P) Hb) as Hs.
      destruct (Stop_statement (calls P i) (sys P)) as [[pc s1]| |]; try discriminate.
      now inversion Ha; subst.
Qed.

(** In every run of the provisioner, with any calls of Stop: as long as no
    call of environs.NewEnviron has succeeded, the Controller has not been in
    innerLoop, holds no handle, has applied no configuration and has not
    subscribed to machines changes. *)
Theorem nothing_before_first_construction (acts : list action) (P : Process) :
  interleave acts (start initial_world) = Next P ->
  successful_constructions (world (sys P)) = 0 ->
  at_ (sys P) <> AtInnerLoop
  /\ environ (prov (sys P)) = None
  /\ applications (world (sys P)) = 0
  /\ m_watcher (p_machines (prov (sys P))) = None
  /\ machines_watchers (world (sys P)) = [].
Proof.
  intros Hrun.
  apply (interleave_before_first_construction acts (start initial_world) P);
    [ | exact Hrun ].
  intros _. unfold never_active. simpl. repeat split; discriminate.
Qed.

Lemma step_applied_after_validation (ev : event) (s : System) :
  applied_after_validation (trace (world s)) ->
  match step ev s with
  | Next s' => applied_after_validation (trace (world s'))
  | Blocked => True
  | Panic => True
  end.
Proof.
  destruct s as [[env t [ew] [mw]] [nw cws mws tr] c]. simpl. intros H. open_step.
  destruct c, ev as [|[[cfg|]|[mc|]]], ew, mw; simpl; branch; auto.
Qed.

Lemma Stop_statement_applied_after_validation (pc : stop_pc) (s : System) :
  applied_after_validation (trace (world s)) ->
  match Stop_statement pc s with
  | Next (_, s') => applied_after_validation (trace (world s'))
  | Blocked => True
  | Panic => True
  end.
Proof.
  destruct s as [[env t [ew] [mw]] [nw cws mws tr] c]. simpl. intros H. open_step.
  destruct pc, ew, mw; simpl; branch; auto.
Qed.

Lemma interleave_applied_after_validation (acts : list action) :
  forall P P',
    applied_after_validation (trace (world (sys P))) ->
    interleave acts P = Next P' ->
    applied_after_validation (trace (world (sys P'))).
Proof.
  induction acts as [|a acts IH]; intros P P' Hb H; simpl in H.
  - now inversion H; subst.
  - destruct (act a P) as [P1| |] eqn:Ha; try discriminate.
    apply (IH P1 P'); [ | exact H ].
    destruct a as [ev|i]; simpl in Ha.
    + pose proof (step_applied_after_validation ev (sys P) Hb) as Hs.
      destruct (step ev (sys P)); try discriminate. now inversion Ha; subst.
    + pose proof (Stop_statement_applied_after_validation (calls P i) (sys P) Hb) as Hs.
      destruct (Stop_statement (calls P i) (sys P)) as [[pc s1]| |]; try discriminate.
      now inversion Ha; subst.
Qed.

Lemma applied_after_validation_at (tr : list Call) :
  applied_after_validation tr ->
  forall later config earlier,
    tr = (later ++ CallSetConfig config :: earlier)%list ->
    exists m rest, earlier = CallNewConfig m :: rest /\ NewConfig m = inl config.
Proof.
  induction tr as [|call tr IH]; intros Hok later config earlier Heq.
  - destruct later; discriminate.
  - destruct later as [|call' later]; simpl in Heq; inversion Heq; subst.
    + simpl in Hok. destruct Hok as [Hnext _].
      destruct earlier as [|[m|m|c|f a] rest]; try contradiction. eauto.
    + apply (IH) with (later := later); [ | reflexivity ].
      destruct call'; simpl in Hok; tauto.
Qed.

(** In every run of the provisioner, with any calls of Stop: each call of
    SetConfig in the trace comes directly after a call of environs.NewConfig
    that returned the configuration it applies, with no error. *)
Theorem SetConfig_follows_NewConfig
    (acts : list action) (P : Process) (later earlier : list Call) (config : Config) :
  interleave acts (start initial_world) = Next P ->
  trace (world (sys P)) = (later ++ CallSetConfig config :: earlier)%list ->
  exists m rest, earlier = CallNewConfig m :: rest /\ NewConfig m = inl config.
Proof.
  intros Hrun Htr.
  apply (applied_after_validation_at (trace (world (sys P)))) with (later := later);
    [ | exact Htr ].
  apply (interleave_applied_after_validation acts (start initial_world) P);
    [ exact I | exact Hrun ].
Qed.

(** Stop does not keep the goroutine from subscribing again.  When the
    select of loop is entered after Stop has invalidated the configuration
    subscription, it starts a new watch before it takes the Dying case: loop
    returns, Wait returns, and that watcher is live and held, stopped by
    nobody. *)
Theorem Stop_can_leave_a_watcher (i : nat) (P : Process) :
  calls P i = AtWait ->
  at_ (sys P) = AtLoop ->
  tomb.dying (p_tomb (prov (sys P))) = true ->
  e_watcher (p_environment (prov (sys P))) = None ->
  config_watchers (world (sys P)) = [] ->
  exists P1 P2,
    act (Select Dying) P = Next P1
    /\ act (StopStatement i) P1 = Next P2
    /\ calls P2 i = Returned (tomb.reason (p_tomb (prov (sys P))))
    /\ at_ (sys P2) = Exited
    /\ e_watcher (p_environment (prov (sys P2))) = Some (next_watcher (world (sys P)))
    /\ config_watchers (world (sys P2)) = [next_watcher (world (sys P))].
Proof.
  destruct P as [[[env [dg dd rs] [ew] [mw]] [nw cws mws tr] c] cl]. simpl.
  intros Hpc -> -> -> ->.
  unfold act.
  eexists. eexists. split; [ cbn; reflexivity | ].
  cbn. rewrite Hpc. cbn.
  split; [ reflexivity | ]. cbn. rewrite set_call_eq.
  destruct rs; repeat split; reflexivity.
Qed.

End MoreOnWholeRuns.

(** ** The further properties at work on the dummy provider *)

Lemma Run_waits_forever_witness :
  Run (C := dummy.collaborators) (inl initial_world) scenario.received
  = Next (RunWaiting scenario.waiting)
  /\ exists s,
       RunWaiting scenario.waiting = RunWaiting s
       /\ run scenario.received (NewProvisioner initial_world) = Next s
       /\ at_ s <> Exited
       /\ ~ In Dying scenario.received.
Proof.
  assert (Hrun : Run (C := dummy.collaborators) (inl initial_world) scenario.received
                 = Next (RunWaiting scenario.waiting))
    by (vm_compute; reflexivity).
  split; [ exact Hrun | ].
  exact (proj2 (proj2 (Run_waits_forever (C := dummy.collaborators)))
               initial_world scenario.received (RunWaiting scenario.waiting) Hrun).
Defined.

Lemma machines_changes_change_nothing_witness :
  at_ dummy.active = AtInnerLoop
  /\ exists s',
       run (C := dummy.collaborators)
           (map machines_change [[1]; [1; 2]; []]) dummy.active = Next s'
       /\ at_ s' = AtInnerLoop
       /\ environ (prov s') = environ (prov dummy.active)
       /\ trace (world s') = trace (world dummy.active).
Proof.
  split; [ reflexivity | ].
  destruct (proj2 (machines_changes_change_nothing (C := dummy.collaborators) dummy.active)
                  eq_refl [[1]; [1; 2]; []])
    as (s' & Hrun & Hat & Henv & _ & Htr & _).
  exists s'. auto.
Defined.

Lemma closed_config_channel_in_Idle_resubscribes_witness :
  at_ (NewProvisioner (C := dummy.collaborators) initial_world) = AtLoop
  /\ watchers_ok (NewProvisioner (C := dummy.collaborators) initial_world)
  /\ exists s',
       step (C := dummy.collaborators) (Receive (EnvironmentChange None))
            (NewProvisioner initial_world) = Next s'
       /\ at_ s' = AtLoop
       /\ e_watcher (p_environment (prov s')) = None
       /\ config_watchers (world s') = [].
Proof.
  assert (Hw : watchers_ok (NewProvisioner (C := dummy.collaborators) initial_world))
    by (split; reflexivity).
  split; [ reflexivity | ]. split; [ exact Hw | ].
  destruct (closed_config_channel_in_Idle_resubscribes
              (C := dummy.collaborators) (NewProvisioner initial_world) eq_refl Hw)
    as (s' & Hs & Hat & He & Hc & _).
  exists s'. auto.
Defined.

Lemma Dying_case_in_both_loops_witness :
  at_ scenario.dying_active <> Exited
  /\ tomb.dying (p_tomb (prov scenario.dying_active)) = true
  /\ at_ scenario.dying_active = AtInnerLoop
  /\ exists s',
       step (C := dummy.collaborators) Dying scenario.dying_active = Next s'
       /\ at_ s' = AtLoop
       /\ environ (prov s') = environ (prov scenario.dying_active).
Proof.
  assert (Hx : at_ scenario.dying_active <> Exited) by (vm_compute; discriminate).
  split; [ exact Hx | ]. split; [ reflexivity | ]. split; [ reflexivity | ].
  destruct (proj2 (proj2 (Dying_case_in_both_loops
                            (C := dummy.collaborators) scenario.dying_active Hx))
                  eq_refl eq_refl)
    as (s' & Hs & Hat & _ & Henv & _).
  exists s'. auto.
Defined.

Lemma nothing_before_first_construction_witness :
  interleave (C := dummy.collaborators) scenario.idle_run (start initial_world)
  = Next scenario.idle
  /\ successful_constructions (world (sys scenario.idle)) = 0
  /\ at_ (sys scenario.idle) <> AtInnerLoop
  /\ environ (prov (sys scenario.idle)) = None
  /\ applications (world (sys scenario.idle)) = 0
  /\ m_watcher (p_machines (prov (sys scenario.idle))) = None
  /\ machines_watchers (world (sys scenario.idle)) = [].
Proof.
  assert (Hrun : interleave (C := dummy.collaborators) scenario.idle_run
                            (start initial_world) = Next scenario.idle)
    by (vm_compute; reflexivity).
  split; [ exact Hrun | ]. split; [ reflexivity | ].
  exact (nothing_before_first_construction (C := dummy.collaborators)
           scenario.idle_run scenario.idle Hrun eq_refl).
Defined.

Lemma SetConfig_follows_NewConfig_witness :
  interleave (C := dummy.collaborators) scenario.applied_run (start initial_world)
  = Next scenario.applied
  /\ trace (world (sys scenario.applied))
     = (firstn 2 (trace (world (sys scenario.applied)))
        ++ CallSetConfig (C := dummy.collaborators) dummy.good_extra
        :: skipn 3 (trace (world (sys scenario.applied))))%list
  /\ exists m rest,
       skipn 3 (trace (world (sys scenario.applied))) = CallNewConfig m :: rest
       /\ NewConfig m = inl dummy.good_extra.
Proof.
  assert (Hrun : interleave (C := dummy.collaborators) scenario.applied_run
                            (start initial_world) = Next scenario.applied)
    by (vm_compute; reflexivity).
  assert (Htr : trace (world (sys scenario.applied))
                = (firstn 2 (trace (world (sys scenario.applied)))
                   ++ CallSetConfig (C := dummy.collaborators) dummy.good_extra
                   :: skipn 3 (trace (world (sys scenario.applied))))%list)
    by (vm_compute; reflexivity).
  split; [ exact Hrun | ]. split; [ exact Htr | ].
  exact (SetConfig_follows_NewConfig (C := dummy.collaborators)
           scenario.applied_run scenario.applied _ _ dummy.good_extra Hrun Htr).
Defined.

Lemma Stop_can_leave_a_watcher_witness :
  calls scenario.stopping 0 = AtWait
  /\ at_ (sys scenario.stopping) = AtLoop
  /\ tomb.dying (p_tomb (prov (sys scenario.stopping))) = true
  /\ e_watcher (p_environment (prov (sys scenario.stopping))) = None
  /\ config_watchers (world (sys scenario.stopping)) = []
  /\ exists P1 P2,
       act (C := dummy.collaborators) (Select Dying) scenario.stopping = Next P1
       /\ act (StopStatement 0) P1 = Next P2
       /\ calls P2 0 = Returned None
       /\ at_ (sys P2) = Exited
       /\ config_watchers (world (sys P2)) = [0].
Proof.
  repeat (split; [ reflexivity | ]).
  destruct (Stop_can_leave_a_watcher (C := dummy.collaborators) 0 scenario.stopping
              eq_refl eq_refl eq_refl eq_refl eq_refl)
    as (P1 & P2 & H1 & H2 & Hpc & Hat & _ & Hw).
  exists P1, P2. auto.
Defined.
